(** * Convergence wait of [sunbeam.core.juju.JujuHelper]

    A shallow embedding of [JujuHelper._wait_until_status_coroutine] and
    [JujuHelper.wait_until_desired_status] (sunbeam-python/sunbeam/core/juju.py),
    with the properties of the status evaluation, of the unit attribution and
    of the waiter's outcomes.

    Time is not measured: a call of the waiter is run against the trace of
    what happens before its deadline (status calls that answer, sleeps that
    end), and the timeout fires when the trace ends with a task still
    suspended. *)

From stdpp Require Import gmap strings list fin_maps.
From Stdlib Require Import ZArith Lia Ascii.

Set Warnings "-clear-no-such-hyp,-register-all".

Local Open Scope string_scope.
Local Open Scope Z_scope.

(** ** Status snapshot

    The part of python-libjuju's [FullStatus] that the waiter reads.  A
    Python dict is a [gmap]; an attribute that may be [None] is an option. *)

Record DetailedStatus := mkDetailedStatus {
  ds_status : string;                       (* .status *)
  ds_info : string                          (* .info, the status message *)
}.

Record UnitStatus := mkUnitStatus {
  workload_status : option DetailedStatus;
  agent_status : option DetailedStatus
}.

Record ApplicationStatus := mkApplicationStatus {
  units : gmap string UnitStatus;
  subordinate_to : list string;
  status : option DetailedStatus;
  int_ : option Z                           (* None on machine models *)
}.

Record FullStatus := mkFullStatus {
  applications : gmap string ApplicationStatus
}.

(** ** Status evaluation of [_wait_until_status_coroutine]

    The body of the polling loop between the lookup of the application and
    the sleep: it collects two sets of strings, counts units and combines
    the four conditions. *)

Module Evaluation.

(** [unit_list is None or name in unit_list] *)
Definition watched (unit_list : option (list string)) (name : string) : bool :=
  match unit_list with
  | None => true
  | Some l => bool_decide (name ∈ l)
  end.

(** One turn of [for name, unit in units.items()]; the accumulator is the
    pair [(app_status, agent_status)]. *)
Definition collect_unit (unit_list : option (list string))
    (acc : gset string * gset string) (item : string * UnitStatus)
    : gset string * gset string :=
  if watched unit_list item.1 then
    let acc1 :=
      match workload_status item.2 with
      | Some wl_status => ({[ ds_status wl_status ]} ∪ acc.1, acc.2)
      | None => acc
      end in
    match agent_status item.2 with
    | Some _agent_status => (acc1.1, {[ ds_status _agent_status ]} ∪ acc1.2)
    | None => acc1
    end
  else acc.

(** The two sets after the [if application.subordinate_to: ... else: ...]
    statement.  A non-empty list is true in Python. *)
Definition collect_status (application : ApplicationStatus)
    (unit_list : option (list string)) : gset string * gset string :=
  match subordinate_to application with
  | _ :: _ =>
      match status application with
      | Some st => ({[ ds_status st ]}, ∅)
      | None => (∅, ∅)
      end
  | [] => foldl (collect_unit unit_list) (∅, ∅) (map_to_list (units application))
  end.

Definition app_status application unit_list : gset string :=
  (collect_status application unit_list).1.

Definition agent_status_set application unit_list : gset string :=
  (collect_status application unit_list).2.

Definition expected_unit_count (application : ApplicationStatus)
    (unit_list : option (list string)) : option Z :=
  match unit_list with
  | None => int_ application
  | Some l => Some (Z.of_nat (length l))
  end.

(** [len(units)], or [len([unit for unit in units if unit in unit_list])];
    iterating a dict yields its keys. *)
Definition unit_count (application : ApplicationStatus)
    (unit_list : option (list string)) : Z :=
  match unit_list with
  | None => Z.of_nat (size (units application))
  | Some l =>
      Z.of_nat (length (filter (λ unit, unit ∈ l)
                               ((map_to_list (units application)).*1)))
  end.

Definition unit_count_cond application unit_list : bool :=
  match expected_unit_count application unit_list with
  | None => true
  | Some n => bool_decide (n = unit_count application unit_list)
  end.

(** [agent_status.issubset(expected_agent_status)] on an iterable *)
Definition issubset_list (s : gset string) (l : list string) : bool :=
  bool_decide (s ⊆ list_to_set l).

(** The condition of the [if] that ends the wait for one application. *)
Definition desired_status_reached (application : ApplicationStatus)
    (unit_list : option (list string)) (expected_status : gset string)
    (expected_agent_status : option (list string)) : bool :=
  unit_count_cond application unit_list
  && bool_decide (0 < size (app_status application unit_list))%nat
  && bool_decide (app_status application unit_list ⊆ expected_status)
  && match expected_agent_status with
     | None => true
     | Some l => issubset_list (agent_status_set application unit_list) l
     end.

End Evaluation.

(** ** What a snapshot reports, stated on the snapshot itself *)

Module Reading.
Import Evaluation.

Definition in_subset (unit_list : option (list string)) (name : string) : Prop :=
  match unit_list with
  | None => True
  | Some l => name ∈ l
  end.

(** A workload status observed for the application: the status of one of
    the watched units, or the application's own status for a subordinate. *)
Definition reports_workload (application : ApplicationStatus)
    (unit_list : option (list string)) (s : string) : Prop :=
  match subordinate_to application with
  | [] => ∃ name unit wl, units application !! name = Some unit
            ∧ in_subset unit_list name
            ∧ workload_status unit = Some wl ∧ ds_status wl = s
  | _ :: _ => ∃ st, status application = Some st ∧ ds_status st = s
  end.

(** An agent status observed: none for a subordinate. *)
Definition reports_agent (application : ApplicationStatus)
    (unit_list : option (list string)) (s : string) : Prop :=
  match subordinate_to application with
  | [] => ∃ name unit ag, units application !! name = Some unit
            ∧ in_subset unit_list name
            ∧ agent_status unit = Some ag ∧ ds_status ag = s
  | _ :: _ => False
  end.

(** A status message observed on a watched unit's workload status. *)
Definition reports_message (application : ApplicationStatus)
    (unit_list : option (list string)) (m : string) : Prop :=
  ∃ name unit wl, units application !! name = Some unit
    ∧ in_subset unit_list name
    ∧ workload_status unit = Some wl ∧ ds_info wl = m ∧ m ≠ "".

(** The unit-count condition: without a subset, the snapshot's expected
    count is unknown or equals the number of units; with a subset, the
    number of listed names equals the number of units that are listed. *)
Definition count_matches (application : ApplicationStatus)
    (unit_list : option (list string)) : Prop :=
  match unit_list with
  | None => int_ application = None
            ∨ int_ application = Some (Z.of_nat (size (dom (units application))))
  | Some l => length l = size (dom (units application) ∩ list_to_set l)
  end.

End Reading.

(** ** Exceptions, result queue and watch tasks *)

Inductive exn :=
| ValueError (msg : string)
| QueueFull
| ConnectionClosedError (msg : string)
| JujuAPIError (msg : string)
| TimeoutException (msg : string)
| JujuWaitException (msg : string) (excs : list exn).

(** [asyncio.Queue]: [maxsize <= 0] means unbounded. *)
Record Queue := mkQueue {
  maxsize : Z;
  items : list string
}.

Definition full (q : Queue) : bool :=
  if decide (maxsize q ≤ 0) then false
  else bool_decide (maxsize q ≤ Z.of_nat (length (items q))).

Definition put_nowait (q : Queue) (item : string) : exn + Queue :=
  if full q then inl QueueFull
  else inr (mkQueue (maxsize q) (items q ++ [item])).

(** What [await model.get_status([app])] gives back to the coroutine. *)
Inductive reply :=
| Snapshot (st : FullStatus)
| Failure (e : exn).

(** Where a watch task stands: suspended in [get_status], suspended in
    [asyncio.sleep(15)], finished by [return], finished by an exception, or
    ended by a cancellation (the coroutine catches [CancelledError]). *)
Inductive task_state :=
| Fetching
| Sleeping
| Returned
| Raised (e : exn)
| Cancelled.

Record task := mkTask {
  app : string;
  unit_list : option (list string);
  state : task_state
}.

Definition running (s : task_state) : bool :=
  match s with
  | Fetching | Sleeping => true
  | _ => false
  end.

Definition exception (t : task) : option exn :=
  match state t with
  | Raised e => Some e
  | _ => None
  end.

Module Coroutine.
Import Evaluation.

(** [_wait_until_status_coroutine] from the point where [get_status]
    answers to its next suspension or its end.  [expected_status] is the
    parameter of the coroutine ([None] stands for {"active"}). *)
Definition wait_until_status_coroutine (app : string)
    (unit_list : option (list string)) (queue : option Queue)
    (expected_status : option (gset string))
    (expected_agent_status : option (list string)) (r : reply)
    : task_state * option Queue :=
  let expected_status :=
    match expected_status with
    | None => {[ "active" ]}
    | Some s => s
    end in
  match r with
  | Failure e => (Raised e, queue)
  | Snapshot st =>
      match applications st !! app with
      | None =>
          (Raised (ValueError ("Application " +:+ app +:+ " not found in status")),
           queue)
      | Some application =>
          if desired_status_reached application unit_list expected_status
               expected_agent_status
          then
            match queue with
            | None => (Returned, None)
            | Some q =>
                match put_nowait q app with
                | inl e => (Raised e, Some q)
                | inr q' => (Returned, Some q')
                end
            end
          else (Sleeping, queue)
      end
  end.

End Coroutine.

(** ** The event loop between the start of the tasks and the deadline *)

(** What happens while the waiter is suspended in [asyncio.wait_for]: the
    [get_status] call of task [i] answers, or the sleep of task [i] ends.
    The trace of a call lists these events up to the moment the gather
    completes or the timeout fires. *)
Inductive event :=
| Reply (i : nat) (r : reply)
| Wake (i : nat).

Definition event_task (ev : event) : nat :=
  match ev with
  | Reply i _ => i
  | Wake i => i
  end.

Record waiter_state := mkWaiterState {
  tasks : list task;
  shared_queue : option Queue;
  get_status_calls : nat
}.

Module Loop.
Import Coroutine.

Section WithExpected.
Variable wl_status : gset string.
Variable expected_agent_status : option (list string).

Definition set_state (t : task) (s : task_state) : task :=
  mkTask (app t) (unit_list t) s.

(** An event for a task that is not suspended there leaves the state as it
    is. *)
Definition step (ws : waiter_state) (ev : event) : waiter_state :=
  match ev with
  | Reply i r =>
      match tasks ws !! i with
      | Some t =>
          match state t with
          | Fetching =>
              let res := wait_until_status_coroutine (app t) (unit_list t)
                           (shared_queue ws) (Some wl_status) expected_agent_status r in
              mkWaiterState (<[i := set_state t res.1]> (tasks ws)) res.2
                (get_status_calls ws)
          | _ => ws
          end
      | None => ws
      end
  | Wake i =>
      match tasks ws !! i with
      | Some t =>
          match state t with
          | Sleeping =>
              mkWaiterState (<[i := set_state t Fetching]> (tasks ws))
                (shared_queue ws) (S (get_status_calls ws))
          | _ => ws
          end
      | None => ws
      end
  end.

Definition run (trace : list event) (ws : waiter_state) : waiter_state :=
  foldl step ws trace.

End WithExpected.
End Loop.

(** ** [wait_until_desired_status] *)

(** What the caller observes: the exception raised (or a normal return),
    whether the model connection was opened, and the tasks, queue and number
    of status calls when the call ends. *)
Record report := mkReport {
  raised : option exn;
  model_connected : bool;
  final : waiter_state
}.

Module Waiter.
Import Loop.

(** [app in unit] on Python strings: [app] occurs somewhere in [unit]. *)
Fixpoint occurs_in (app unit : string) : bool :=
  String.prefix app unit
  || match unit with
     | EmptyString => false
     | String _ rest => occurs_in app rest
     end.

(** [None if units is None else [unit for unit in units if app in unit]] *)
Definition unit_list_for (units : option (list string)) (app : string)
    : option (list string) :=
  match units with
  | None => None
  | Some l => Some (filter (λ unit, occurs_in app unit = true) l)
  end.

(** The tasks as [asyncio.create_task] leaves them once the waiter suspends:
    each coroutine has run up to its first [await model.get_status([app])]. *)
Definition spawn (apps : list string) (units : option (list string))
    (queue : option Queue) : waiter_state :=
  mkWaiterState
    ((λ app, mkTask app (unit_list_for units app) Fetching) <$> apps)
    queue (length apps).

(** [task.cancel()]: ends a suspended task, does nothing to a finished one. *)
Definition cancel (t : task) : task :=
  if running (state t) then set_state t Cancelled else t.

(** Number of [get_status] calls that are awaited at the same moment. *)
Definition in_flight (ws : waiter_state) : nat :=
  sum_list_with
    (λ t, match state t with Fetching => 1%nat | _ => 0%nat end) (tasks ws).

(** Number of tasks that are still suspended. *)
Definition suspended (l : list task) : nat :=
  sum_list_with (λ t, if running (state t) then 1%nat else 0%nat) l.

(** The queue, if there is one, can take one item from each suspended task. *)
Definition has_room (ws : waiter_state) : Prop :=
  match shared_queue ws with
  | Some q => Z.of_nat (length (items q) + suspended (tasks ws)) ≤ maxsize q
  | None => True
  end.


Definition gather_done (ws : waiter_state) : bool :=
  forallb (λ t, negb (running (state t))) (tasks ws).

Definition queue_too_small (queue : option Queue) (apps : list string) : bool :=
  match queue with
  | Some q => bool_decide (maxsize q < Z.of_nat (length apps))
  | None => false
  end.

(** [wl_status] of the waiter: {"active"} unless a list is given. *)
Definition wl_status_of (status : option (list string)) : gset string :=
  match status with
  | None => {[ "active" ]}
  | Some l => list_to_set l
  end.

(** The tasks at the moment [asyncio.wait_for] ends, after the events of
    [trace]. *)
Definition at_deadline (apps : list string) (units : option (list string))
    (status agent_status : option (list string)) (queue : option Queue)
    (trace : list event) : waiter_state :=
  run (wl_status_of status) agent_status trace (spawn apps units queue).

Definition timeout_message (repr : string → string) (model : string) : string :=
  "Timed out while waiting for model " +:+ repr model +:+ " to be ready".

Definition error_message (repr : string → string) (model : string) : string :=
  "Error while waiting for model " +:+ repr model +:+ " to be ready".

Section WithRepr.
(** Python's [repr] on [str], used by the [{model!r}] format fields. *)
Variable repr : string → string.

(** The gather is complete when every task has ended; otherwise the events
    of the trace are all that happened before the timeout, [wait_for] raises
    [asyncio.TimeoutError] and the [except] clause raises
    [TimeoutException].  The [finally] clause runs on both paths. *)
Definition wait_until_desired_status (model : string) (apps : list string)
    (units : option (list string)) (status : option (list string))
    (agent_status : option (list string)) (queue : option Queue)
    (trace : list event) : report :=
  if queue_too_small queue apps then
    mkReport
      (Some (ValueError "Queue size should be at least the number of applications"))
      false (mkWaiterState [] queue 0)
  else
    let ws := at_deadline apps units status agent_status queue trace in
    (* finally: cancel every task, keep the exceptions of the finished ones *)
    let ws' := mkWaiterState (cancel <$> tasks ws) (shared_queue ws)
                 (get_status_calls ws) in
    let excs := omap exception (tasks ws') in
    if gather_done ws then
      match excs with
      | [] => mkReport None true ws'
      | _ :: _ =>
          mkReport (Some (JujuWaitException (error_message repr model) excs))
            true ws'
      end
    else
      mkReport (Some (TimeoutException (timeout_message repr model))) true ws'.

End WithRepr.

(** [repr] of a string without quotes, backslashes or control characters. *)
Definition quoted (s : string) : string := "'" +:+ s +:+ "'".

End Waiter.

Module Examples.
Import Waiter.

Definition unit_of (workload agent message : string) : UnitStatus :=
  mkUnitStatus (Some (mkDetailedStatus workload message))
               (Some (mkDetailedStatus agent "")).

Definition app_of (l : list (string * UnitStatus)) : ApplicationStatus :=
  mkApplicationStatus (list_to_map l) [] None (Some (Z.of_nat (length l))).

Definition snapshot_of (l : list (string * ApplicationStatus)) : FullStatus :=
  mkFullStatus (list_to_map l).

(** A snapshot with the single application [name], whose single unit
    [name/0] has the given workload status and an idle agent. *)
Definition one_unit (name workload : string) : reply :=
  Snapshot (snapshot_of
    [(name, app_of [(name +:+ "/0", unit_of workload "idle" "")])]).

(** A snapshot in which both "app1" and "app2" are active. *)
Definition both_active : reply :=
  Snapshot (snapshot_of
    [("app1", app_of [("app1/0", unit_of "active" "idle" "")]);
     ("app2", app_of [("app2/0", unit_of "active" "idle" "")])]).

(** A snapshot that knows no application at all. *)
Definition nothing : reply := Snapshot (snapshot_of []).

(** One unit, workload "active" with message "Error", agent "idle". *)
Definition app1_with_message : ApplicationStatus :=
  app_of [("app1/0", unit_of "active" "idle" "Error")].

(** A subordinate: no units of its own, status "active" on the application. *)
Definition subordinate_active : ApplicationStatus :=
  mkApplicationStatus ∅ ["app0"] (Some (mkDetailedStatus "active" "")) None.

End Examples.

(** ** The claims as the specification words them *)

Module Stated.
Import Evaluation Reading.

(** The verdict as the specification words it, with an optional
    status-message constraint as fourth condition. *)
Definition verdict_with_messages (application : ApplicationStatus)
    (unit_list : option (list string)) (expected_status : gset string)
    (expected_agent_status : option (list string))
    (expected_messages : option (list string)) : Prop :=
  count_matches application unit_list
  ∧ ((∃ s, reports_workload application unit_list s)
     ∧ ∀ s, reports_workload application unit_list s → s ∈ expected_status)
  ∧ (∀ l, expected_agent_status = Some l →
       ∀ s, reports_agent application unit_list s → s ∈ l)
  ∧ (∀ l, expected_messages = Some l →
       ∀ m, reports_message application unit_list m → m ∈ l).

End Stated.

(** ** What a normal return of the wait means *)

Module Active.
Import Evaluation Loop Waiter.

(** Task [i] got, in [trace], a snapshot in which application [a], watched
    on [unit_list], was in the desired status. *)
Definition satisfied_in (trace : list event) (i : nat) (a : string)
    (unit_list : option (list string)) (wl_status : gset string)
    (agent_status : option (list string)) : Prop :=
  ∃ st application,
    Reply i (Snapshot st) ∈ trace
    ∧ applications st !! a = Some application
    ∧ desired_status_reached application unit_list wl_status agent_status = true.

(** Every task that has returned has seen a snapshot with its application
    in the desired status. *)
Definition returned_justified (wl_status : gset string)
    (agent_status : option (list string)) (trace : list event)
    (ws : waiter_state) : Prop :=
  ∀ j t, tasks ws !! j = Some t → state t = Returned →
    satisfied_in trace j (app t) (unit_list t) wl_status agent_status.

(** The application name a task has put on the queue, if it returned. *)
Definition delivered (t : task) : option string :=
  match state t with
  | Returned => Some (app t)
  | _ => None
  end.

(** The queue holds what [q0] held plus the names the tasks have put. *)
Definition queue_holds (q0 : Queue) (ws : waiter_state) : Prop :=
  ∃ q l, shared_queue ws = Some q ∧ maxsize q = maxsize q0
         ∧ items q = (items q0 ++ l)%list
         ∧ l ≡ₚ omap delivered (tasks ws).


End Active.

(** ** Unit names, charm URLs and channels

    [JujuHelper._validate_unit] and the string helpers of [JujuStepHelper]. *)

(** A Python exception of these helpers: its class and its message. *)
Record py_error := PyError {
  exc_class : string;
  exc_message : string
}.

Module Names.

(** [s.split(sep)] for a separator of one character. *)
Fixpoint split (sep : Ascii.ascii) (s : string) : list string :=
  match s with
  | EmptyString => [""]
  | String c rest =>
      if Ascii.eqb c sep then "" :: split sep rest
      else
        match split sep rest with
        | part :: parts => String c part :: parts
        | [] => [String c ""]
        end
  end.

(** [s.rsplit(sep, maxsplit=1)] for a separator of one character. *)
Fixpoint rsplit1 (sep : Ascii.ascii) (s : string) : list string :=
  match s with
  | EmptyString => [""]
  | String c rest =>
      match rsplit1 sep rest with
      | [tail] => if Ascii.eqb c sep then [""; tail] else [String c tail]
      | part :: parts => String c part :: parts
      | [] => [String c ""]
      end
  end.

(** Number of occurrences of a character. *)
Fixpoint count_char (c : Ascii.ascii) (s : string) : nat :=
  match s with
  | EmptyString => 0
  | String d rest => (if Ascii.eqb d c then 1 else 0) + count_char c rest
  end.

(** [l[-1]] and [l[0]] of a list that is not empty. *)
Definition last_item (l : list string) : string := default "" (last l).
Definition first_item (l : list string) : string := default "" (head l).

Definition slash : Ascii.ascii := "/"%char.
Definition dash : Ascii.ascii := "-"%char.

Section WithRepr.
Variable repr : string → string.

(** [_validate_unit]: [None] when the name is accepted. *)
Definition validate_unit (unit : string) : option py_error :=
  let parts := split slash unit in
  if decide (length parts ≠ 2%nat) then
    Some (PyError "ValueError"
            ("Name " +:+ repr unit +:+ " has invalid format, "
             +:+ "should be a valid unit of format application/id"))
  else None.

End WithRepr.

Definition risks : list string := ["stable"; "candidate"; "beta"; "edge"].

Definition normalise_channel (channel : string) : string :=
  if decide (channel ∈ risks) then "latest/" +:+ channel else channel.

(** [charm_url.split("/")[-1].rsplit("-", maxsplit=1)[0]] *)
Definition extract_charm_name (charm_url : string) : string :=
  first_item (rsplit1 dash (last_item (split slash charm_url))).

(** [charm_url.split("-")[-1]] *)
Definition extract_charm_revision (charm_url : string) : string :=
  last_item (split dash charm_url).

(** [l.index(x)]; [None] stands for the [ValueError]. *)
Fixpoint index (x : string) (l : list string) : option nat :=
  match l with
  | [] => None
  | y :: rest => if decide (x = y) then Some 0%nat else S <$> index x rest
  end.

Section Channels.
(** [packaging.version]: [parse] is [None] on [InvalidVersion]. *)
Variable version : Type.
Variable parse : string → option version.
Variable version_lt : version → version → bool.
(** The interpreter's messages for an unpacking of [n] values into two
    names and for [list.index] of a missing value. *)
Variable unpack_message : nat → string.
Variable index_message : string → string.

(** [a, b = l] *)
Definition unpack2 (l : list string) : py_error + (string * string) :=
  match l with
  | [a; b] => inr (a, b)
  | _ => inl (PyError "ValueError" (unpack_message (length l)))
  end.

Definition channel_update_needed (channel new_channel : string)
    : py_error + bool :=
  let current_channel := normalise_channel channel in
  match unpack2 (split slash current_channel) with
  | inl e => inl e
  | inr (current_track, current_risk) =>
      match unpack2 (split slash new_channel) with
      | inl e => inl e
      | inr (new_track, new_risk) =>
          if decide (current_track ≠ new_track) then
            match parse current_track with
            | None => inr false
            | Some current =>
                match parse new_track with
                | None => inr false
                | Some new => inr (version_lt current new)
                end
            end
          else
            match index current_risk risks with
            | None => inl (PyError "ValueError" (index_message current_risk))
            | Some i =>
                match index new_risk risks with
                | None => inl (PyError "ValueError" (index_message new_risk))
                | Some j => inr (bool_decide (i < j)%nat)
                end
            end
      end
  end.

End Channels.

End Names.

(** ** Units of the live model

    [get_application], [get_unit], [get_unit_from_machine] and the
    preparation and the condition of [wait_units_ready]. *)

Module Units.
Import Names.

(** A [juju.unit.Unit]: [machine] is the [entity_id] of [unit.machine],
    which is [None] for a unit without machine. *)
Record Unit := mkUnit {
  entity_id : string;
  machine : option string;
  unit_agent_status : string;
  unit_workload_status : string
}.

Record Application := mkApplication {
  application_units : list Unit
}.

Record Model := mkModel {
  m_name : string;
  m_applications : gmap string Application;
  m_units : gmap string Unit
}.

(** What [wait_units_ready] does before it blocks: it returns at once,
    raises, or waits on the units it has collected. *)
Inductive prepared :=
| Returns
| Raises (e : py_error)
| Waits (unit_list : list Unit).

(** The [units] argument: one name, or a sequence of names and [Unit]
    objects. *)
Inductive units_argument :=
| OneName (name : string)
| Several (l : list (string + Unit)).

Section WithRepr.
Variable repr : string → string.

Definition get_application (name : string) (model : Model)
    : py_error + Application :=
  match m_applications model !! name with
  | None =>
      inl (PyError "ApplicationNotFoundException"
             ("Application missing from model: " +:+ repr (m_name model)))
  | Some application => inr application
  end.

Definition get_unit (name : string) (model : Model) : py_error + Unit :=
  match validate_unit repr name with
  | Some e => inl e
  | None =>
      match m_units model !! name with
      | None =>
          inl (PyError "UnitNotFoundException"
                 ("Unit " +:+ repr name +:+ " is missing from model "
                  +:+ repr (m_name model)))
      | Some unit => inr unit
      end
  end.

(** The loop [for u in app.units: if machine_id == u.machine.entity_id:
    unit = u]; a unit without machine ends it with [AttributeError]. *)
Fixpoint on_machine (machine_id : string) (units : list Unit)
    (unit : option Unit) : py_error + option Unit :=
  match units with
  | [] => inr unit
  | u :: rest =>
      match machine u with
      | None =>
          inl (PyError "AttributeError"
                 "'NoneType' object has no attribute 'entity_id'")
      | Some m =>
          on_machine machine_id rest
            (if decide (machine_id = m) then Some u else unit)
      end
  end.

Definition get_unit_from_machine (application machine_id : string)
    (model : Model) : py_error + Unit :=
  match get_application application model with
  | inl e => inl e
  | inr app =>
      match on_machine machine_id (application_units app) None with
      | inl e => inl e
      | inr None =>
          inl (PyError "UnitNotFoundException"
                 ("Unit for application " +:+ repr application
                  +:+ " on machine " +:+ repr machine_id +:+ " "
                  +:+ "is missing from model " +:+ repr (m_name model)))
      | inr (Some unit) => inr unit
      end
  end.

(** The loop that fills [unit_list] in [wait_units_ready]. *)
Fixpoint collect_units (model : Model) (units : list (string + Unit))
    (unit_list : list Unit) : prepared :=
  match units with
  | [] => Waits unit_list
  | inr unit :: rest => collect_units model rest (unit_list ++ [unit])
  | inl name :: rest =>
      match validate_unit repr name with
      | Some e => Raises e
      | None =>
          match get_unit name model with
          | inl e =>
              if decide (exc_class e = "UnitNotFoundException") then Returns
              else Raises e
          | inr unit => collect_units model rest (unit_list ++ [unit])
          end
      end
  end.

Definition prepare_units (model : Model) (units : units_argument) : prepared :=
  match units with
  | OneName name => collect_units model [inl name] []
  | Several l => collect_units model l []
  end.

(** [accepted_status.get(key, default)] after [None] became the empty
    dict. *)
Definition accepted (accepted_status : option (gmap string (list string)))
    (key : string) (fallback : list string) : list string :=
  match accepted_status with
  | None => fallback
  | Some d => default fallback (d !! key)
  end.

(** [condition()] of [wait_units_ready] on the current model. *)
Fixpoint condition (agent_accepted_status workload_accepted_status : list string)
    (model : Model) (unit_list : list Unit) : py_error + bool :=
  match unit_list with
  | [] => inr true
  | unit :: rest =>
      match m_units model !! entity_id unit with
      | None => inl (PyError "KeyError" (repr (entity_id unit)))
      | Some unit_impl =>
          let agent_ready :=
            bool_decide (unit_agent_status unit_impl ∈ agent_accepted_status) in
          let workload_ready :=
            bool_decide (unit_workload_status unit_impl
                         ∈ workload_accepted_status) in
          if negb agent_ready || negb workload_ready then inr false
          else condition agent_accepted_status workload_accepted_status model
                 rest
      end
  end.

Definition units_ready (accepted_status : option (gmap string (list string)))
    (model : Model) (unit_list : list Unit) : py_error + bool :=
  condition (accepted accepted_status "agent" ["idle"])
    (accepted accepted_status "workload" ["active"]) model unit_list.

End WithRepr.

(** A name the loop of [wait_units_ready] passes over: a [Unit] object, or
    a well-formed name of a unit of the model. *)
Definition passes (model : Model) (item : string + Unit) : Prop :=
  match item with
  | inl name => count_char slash name = 1%nat ∧ is_Some (m_units model !! name)
  | inr _ => True
  end.

End Units.

(** ** Properties of the evaluation *)

Module EvaluationFacts.
Import Evaluation Reading.

Lemma watched_in_subset unit_list name :
  watched unit_list name = true ↔ in_subset unit_list name.
Proof.
  destruct unit_list as [l|]; simpl; [|done].
  by rewrite bool_decide_eq_true.
Qed.

Lemma collect_unit_workload unit_list acc name unit s :
  s ∈ (collect_unit unit_list acc (name, unit)).1 ↔
  s ∈ acc.1 ∨ (watched unit_list name = true
               ∧ ∃ wl, workload_status unit = Some wl ∧ ds_status wl = s).
Proof.
  unfold collect_unit; simpl.
  destruct (watched unit_list name); [|naive_solver].
  destruct (workload_status unit) as [wl|], (agent_status unit) as [ag|];
    simpl; [ | | naive_solver | naive_solver ].
  all: rewrite elem_of_union, elem_of_singleton; naive_solver.
Qed.

Lemma collect_unit_agent unit_list acc name unit s :
  s ∈ (collect_unit unit_list acc (name, unit)).2 ↔
  s ∈ acc.2 ∨ (watched unit_list name = true
               ∧ ∃ ag, agent_status unit = Some ag ∧ ds_status ag = s).
Proof.
  unfold collect_unit; simpl.
  destruct (watched unit_list name); [|naive_solver].
  destruct (workload_status unit) as [wl|], (agent_status unit) as [ag|];
    simpl; [ | naive_solver | | naive_solver ].
  all: rewrite elem_of_union, elem_of_singleton; naive_solver.
Qed.

Lemma foldl_collect_workload unit_list items : ∀ acc s,
  s ∈ (foldl (collect_unit unit_list) acc items).1 ↔
  s ∈ acc.1 ∨ ∃ name unit wl, (name, unit) ∈ items
      ∧ watched unit_list name = true
      ∧ workload_status unit = Some wl ∧ ds_status wl = s.
Proof.
  induction items as [|[name unit] items IH]; intros acc s; simpl.
  - split; [by left|]. intros [?|(?&?&?&Hin&_)]; [done|].
    by apply elem_of_nil in Hin.
  - rewrite IH, collect_unit_workload. split.
    + intros [[?|(Hw & wl & ? & ?)]|(n & u & wl & Hin & ?)]; [by left|..].
      * right. exists name, unit, wl. split; [left|done].
      * right. exists n, u, wl. split; [by right|done].
    + intros [?|(n & u & wl & Hin & Hw & Hwl & Hs)]; [by left; left|].
      apply elem_of_cons in Hin as [Heq|Hin].
      * inversion Heq; subst. left; right. eauto.
      * right. exists n, u, wl. done.
Qed.

Lemma foldl_collect_agent unit_list items : ∀ acc s,
  s ∈ (foldl (collect_unit unit_list) acc items).2 ↔
  s ∈ acc.2 ∨ ∃ name unit ag, (name, unit) ∈ items
      ∧ watched unit_list name = true
      ∧ agent_status unit = Some ag ∧ ds_status ag = s.
Proof.
  induction items as [|[name unit] items IH]; intros acc s; simpl.
  - split; [by left|]. intros [?|(?&?&?&Hin&_)]; [done|].
    by apply elem_of_nil in Hin.
  - rewrite IH, collect_unit_agent. split.
    + intros [[?|(Hw & ag & ? & ?)]|(n & u & ag & Hin & ?)]; [by left|..].
      * right. exists name, unit, ag. split; [left|done].
      * right. exists n, u, ag. split; [by right|done].
    + intros [?|(n & u & ag & Hin & Hw & Hag & Hs)]; [by left; left|].
      apply elem_of_cons in Hin as [Heq|Hin].
      * inversion Heq; subst. left; right. eauto.
      * right. exists n, u, ag. done.
Qed.

(** The set [app_status] holds exactly the observed workload statuses. *)
Lemma app_status_spec application unit_list s :
  s ∈ app_status application unit_list ↔ reports_workload application unit_list s.
Proof.
  unfold app_status, collect_status, reports_workload.
  destruct (subordinate_to application) as [|? ?].
  - rewrite foldl_collect_workload. simpl. split.
    + intros [H|(n & u & wl & Hin & Hw & ?)]; [set_solver|].
      apply elem_of_map_to_list in Hin. apply watched_in_subset in Hw.
      exists n, u, wl. done.
    + intros (n & u & wl & Hl & Hw & ?). right. exists n, u, wl.
      split; [by apply elem_of_map_to_list|].
      split; [by apply watched_in_subset|done].
  - destruct (status application) as [st|]; simpl.
    + rewrite elem_of_singleton. split; [intros ->; eauto|].
      intros (st' & [= <-] & <-). done.
    + split; [set_solver|]. intros (? & ? & _). done.
Qed.

Lemma agent_status_spec application unit_list s :
  s ∈ agent_status_set application unit_list ↔ reports_agent application unit_list s.
Proof.
  unfold agent_status_set, collect_status, reports_agent.
  destruct (subordinate_to application) as [|? ?].
  - rewrite foldl_collect_agent. simpl. split.
    + intros [H|(n & u & ag & Hin & Hw & ?)]; [set_solver|].
      apply elem_of_map_to_list in Hin. apply watched_in_subset in Hw.
      exists n, u, ag. done.
    + intros (n & u & ag & Hl & Hw & ?). right. exists n, u, ag.
      split; [by apply elem_of_map_to_list|].
      split; [by apply watched_in_subset|done].
  - destruct (status application) as [st|]; simpl; set_solver.
Qed.

Lemma elem_of_keys (m : gmap string UnitStatus) name :
  name ∈ (map_to_list m).*1 ↔ name ∈ dom m.
Proof.
  rewrite list_elem_of_fmap, elem_of_dom. split.
  - intros ([n u] & -> & Hin). apply elem_of_map_to_list in Hin. by exists u.
  - intros [u Hu]. exists (name, u). split; [done|]. by apply elem_of_map_to_list.
Qed.

(** Counting the keys that are listed is counting the listed units. *)
Lemma listed_units_count (m : gmap string UnitStatus) (l : list string) :
  length (filter (λ unit, unit ∈ l) ((map_to_list m).*1))
  = size (dom m ∩ list_to_set (C := gset string) l).
Proof.
  set (listed := filter (λ unit, unit ∈ l) ((map_to_list m).*1)).
  transitivity (size (list_to_set (C := gset string) listed)).
  { symmetry. apply size_list_to_set, NoDup_filter, NoDup_fst_map_to_list. }
  f_equal. apply set_eq. intros name. unfold listed.
  rewrite elem_of_list_to_set, list_elem_of_filter, elem_of_intersection,
    elem_of_list_to_set, elem_of_keys. tauto.
Qed.

Lemma unit_count_cond_spec application unit_list :
  unit_count_cond application unit_list = true ↔ count_matches application unit_list.
Proof.
  unfold unit_count_cond, expected_unit_count, unit_count, count_matches.
  destruct unit_list as [l|].
  - rewrite bool_decide_eq_true, listed_units_count. split; [|by intros ->].
    intros H. by apply Nat2Z.inj.
  - rewrite size_dom. destruct (int_ application) as [n|].
    + rewrite bool_decide_eq_true. split; [intros ->; by right|].
      intros [?|[= ->]]; done.
    + split; [by left|done].
Qed.

Lemma nonempty_spec (X : gset string) :
  bool_decide (0 < size X)%nat = true ↔ ∃ s, s ∈ X.
Proof.
  rewrite bool_decide_eq_true. split; [apply size_pos_elem_of|].
  intros [s Hs]. destruct (decide (size X = 0%nat)) as [H0|]; [|lia].
  apply size_empty_inv in H0. set_solver.
Qed.

(** The verdict of the evaluation in terms of what the snapshot reports. *)
Lemma verdict_spec application unit_list expected_status expected_agent_status :
  desired_status_reached application unit_list expected_status
    expected_agent_status = true ↔
  count_matches application unit_list
  ∧ ((∃ s, reports_workload application unit_list s)
     ∧ ∀ s, reports_workload application unit_list s → s ∈ expected_status)
  ∧ (∀ l, expected_agent_status = Some l →
       ∀ s, reports_agent application unit_list s → s ∈ l).
Proof.
  unfold desired_status_reached.
  rewrite !andb_true_iff, unit_count_cond_spec, nonempty_spec,
    bool_decide_eq_true.
  assert (Hwl : app_status application unit_list ⊆ expected_status ↔
    ∀ s, reports_workload application unit_list s → s ∈ expected_status).
  { split.
    - intros Hsub s Hs. by apply Hsub, app_status_spec.
    - intros H s Hs. by apply H, app_status_spec. }
  assert (Hne : (∃ s, s ∈ app_status application unit_list) ↔
    ∃ s, reports_workload application unit_list s).
  { split; intros [s Hs]; exists s; by apply app_status_spec. }
  assert (Hag : match expected_agent_status with
                | Some l => issubset_list (agent_status_set application unit_list) l
                | None => true
                end = true ↔
    ∀ l, expected_agent_status = Some l →
      ∀ s, reports_agent application unit_list s → s ∈ l).
  { destruct expected_agent_status as [l|].
    - unfold issubset_list. rewrite bool_decide_eq_true. split.
      + intros Hsub l' [= <-] s Hs.
        apply agent_status_spec, Hsub in Hs. by apply elem_of_list_to_set in Hs.
      + intros H s Hs. apply elem_of_list_to_set, (H l eq_refl).
        by apply agent_status_spec.
    - split; [by intros _ l|done]. }
  rewrite Hwl, Hne, Hag. tauto.
Qed.


End EvaluationFacts.

(** ** Verdict of the evaluation *)

Module Verdict.
Import Evaluation Reading EvaluationFacts Stated Examples.

(** X19: the evaluation as it is written is true exactly when (a) the unit
    count matches, (b) a workload status is observed and every observed one
    is expected, and (c) every observed agent status is within the
    constraint, if one is given.  It has no condition on status messages,
    and a unit list, also the empty one, is a subset: only listed units are
    observed. *)
Theorem desired_status_reached_iff application unit_list expected_status
    expected_agent_status :
  desired_status_reached application unit_list expected_status
    expected_agent_status = true ↔
  count_matches application unit_list
  ∧ ((∃ s, reports_workload application unit_list s)
     ∧ ∀ s, reports_workload application unit_list s → s ∈ expected_status)
  ∧ (∀ l, expected_agent_status = Some l →
       ∀ s, reports_agent application unit_list s → s ∈ l).
Proof. apply verdict_spec. Qed.

(** C1: the evaluation has no condition on status messages.  For the
    application of the test case "workload status message does not match"
    (one unit, workload "active" with message "Error", agent "idle"), watched
    on all its units, with wanted messages {"Ready"}: conditions (a) to (c)
    hold, condition (d) does not, and the evaluation is true. *)
Lemma verdict_ignores_messages :
  desired_status_reached app1_with_message None {[ "active" ]} (Some ["idle"])
    = true
  ∧ ¬ verdict_with_messages app1_with_message None {[ "active" ]}
        (Some ["idle"]) (Some ["Ready"]).
Proof.
  split; [by vm_compute|].
  intros (_ & _ & _ & Hmsg).
  specialize (Hmsg ["Ready"] eq_refl "Error").
  assert (Hin : "Error" ∈ ["Ready"]).
  { apply Hmsg. exists "app1/0", (unit_of "active" "idle" "Error"),
      (mkDetailedStatus "active" "Error").
    repeat split; done. }
  apply list_elem_of_singleton in Hin. discriminate.
Qed.

(** C2 (amended): for a subordinate the only workload status compared is
    the application's own and the agent-status constraint has no effect; the
    unit-count condition still applies. *)
Theorem subordinate_verdict application unit_list expected_status
    expected_agent_status :
  subordinate_to application ≠ [] →
  desired_status_reached application unit_list expected_status
    expected_agent_status = true ↔
  count_matches application unit_list
  ∧ ∃ st, status application = Some st ∧ ds_status st ∈ expected_status.
Proof.
  intros Hsub. rewrite verdict_spec.
  unfold reports_workload, reports_agent.
  destruct (subordinate_to application) as [|p ps]; [done|]. split.
  - intros (Hc & [[s (st & Hst & <-)] Hall] & _). split; [done|].
    exists st. split; [done|]. apply Hall. by exists st.
  - intros (Hc & st & Hst & Hin). split; [done|]. split; [split|].
    + exists (ds_status st), st. done.
    + intros s (st' & Hst' & <-). congruence.
    + intros l _ s [].
Qed.

Lemma subordinate_verdict_witness :
  desired_status_reached subordinate_active (Some []) {[ "active" ]}
    (Some ["idle"]) = true ↔
  count_matches subordinate_active (Some [])
  ∧ ∃ st, status subordinate_active = Some st ∧ ds_status st ∈ ({[ "active" ]} : gset string).
Proof. apply subordinate_verdict. simpl. discriminate. Defined.

(** C2 as stated fails: the subordinate's own status is expected, yet one
    listed unit name makes the unit-count condition, and the verdict, false. *)
Lemma subordinate_unit_count_checked :
  subordinate_to subordinate_active ≠ []
  ∧ (∃ st, status subordinate_active = Some st
           ∧ ds_status st ∈ ({[ "active" ]} : gset string))
  ∧ desired_status_reached subordinate_active (Some ["sub/0"]) {[ "active" ]}
      None = false.
Proof.
  split; [discriminate|]. split; [|by vm_compute].
  eexists. split; [reflexivity|]. simpl. set_solver.
Qed.

(** The cases of that test write [[]] for "all units"; the waiter passes
    [None] for it.  Given [[]], the evaluation takes it as a subset without
    units and is false for two active units, where the first case of the
    test expects true. *)
Lemma empty_list_is_a_subset :
  desired_status_reached
    (app_of [("app1/0", unit_of "active" "idle" "");
             ("app1/1", unit_of "active" "idle" "")])
    (Some []) {[ "active" ]} (Some ["idle"]) = false.
Proof. by vm_compute. Qed.

End Verdict.

(** ** Properties of the event loop *)

Module LoopFacts.
Import Evaluation Coroutine Loop.

Section WithExpected.
Variable wl_status : gset string.
Variable expected_agent_status : option (list string).

Local Abbreviation step := (step wl_status expected_agent_status).
Local Abbreviation run := (run wl_status expected_agent_status).

Lemma set_state_same t : set_state t (state t) = t.
Proof. by destruct t. Qed.

Lemma run_cons ev trace ws : run (ev :: trace) ws = run trace (step ws ev).
Proof. done. Qed.

(** A step keeps every task's application and unit subset, and touches at
    most the task the event is addressed to. *)
Lemma step_lookup ws ev j t :
  tasks ws !! j = Some t →
  ∃ s, tasks (step ws ev) !! j = Some (set_state t s)
       ∧ (event_task ev ≠ j → s = state t).
Proof.
  intros Hj.
  assert (Hsame : ∃ s, tasks ws !! j = Some (set_state t s)
                       ∧ (event_task ev ≠ j → s = state t)).
  { exists (state t). by rewrite set_state_same. }
  destruct ev as [i r|i]; simpl.
  - destruct (tasks ws !! i) as [ti|] eqn:Hi; [|done].
    destruct (state ti) eqn:Hs; try done. simpl.
    destruct (decide (i = j)) as [->|Hne].
    + rewrite Hj in Hi. injection Hi as ->. eexists. split.
      * apply list_lookup_insert_eq. by eapply lookup_lt_Some.
      * done.
    + exists (state t). rewrite list_lookup_insert_ne by done.
      by rewrite set_state_same.
  - destruct (tasks ws !! i) as [ti|] eqn:Hi; [|done].
    destruct (state ti) eqn:Hs; try done. simpl.
    destruct (decide (i = j)) as [->|Hne].
    + rewrite Hj in Hi. injection Hi as ->. eexists. split.
      * apply list_lookup_insert_eq. by eapply lookup_lt_Some.
      * done.
    + exists (state t). rewrite list_lookup_insert_ne by done.
      by rewrite set_state_same.
Qed.

(** A task that has ended is not touched any more. *)
Lemma step_ended ws ev j t :
  tasks ws !! j = Some t → running (state t) = false →
  tasks (step ws ev) !! j = Some t.
Proof.
  intros Hj Hend. destruct ev as [i r|i]; simpl.
  - destruct (tasks ws !! i) as [ti|] eqn:Hi; [|done].
    destruct (state ti) eqn:Hs; try done. simpl.
    destruct (decide (i = j)) as [->|Hne].
    + rewrite Hj in Hi. injection Hi as ->. by rewrite Hs in Hend.
    + by rewrite list_lookup_insert_ne.
  - destruct (tasks ws !! i) as [ti|] eqn:Hi; [|done].
    destruct (state ti) eqn:Hs; try done. simpl.
    destruct (decide (i = j)) as [->|Hne].
    + rewrite Hj in Hi. injection Hi as ->. by rewrite Hs in Hend.
    + by rewrite list_lookup_insert_ne.
Qed.

Lemma run_ended trace : ∀ ws j t,
  tasks ws !! j = Some t → running (state t) = false →
  tasks (run trace ws) !! j = Some t.
Proof.
  induction trace as [|ev trace IH]; intros ws j t Hj Hend; [done|].
  rewrite run_cons. apply IH; [|done]. by apply step_ended.
Qed.

Lemma run_lookup trace : ∀ ws j t,
  tasks ws !! j = Some t →
  ∃ s, tasks (run trace ws) !! j = Some (set_state t s).
Proof.
  induction trace as [|ev trace IH]; intros ws j t Hj.
  - exists (state t). by rewrite set_state_same.
  - rewrite run_cons. destruct (step_lookup ws ev j t Hj) as (s & Hs & _).
    destruct (IH _ _ _ Hs) as (s' & Hs'). by exists s'.
Qed.

(** What the answer of [get_status] does to the task that awaits it. *)
Lemma step_reply ws i r t :
  tasks ws !! i = Some t → state t = Fetching →
  step ws (Reply i r) =
    let res := wait_until_status_coroutine (app t) (unit_list t)
                 (shared_queue ws) (Some wl_status) expected_agent_status r in
    mkWaiterState (<[i := set_state t res.1]> (tasks ws)) res.2
      (get_status_calls ws).
Proof. intros Hi Hs. simpl. by rewrite Hi, Hs. Qed.

End WithExpected.
End LoopFacts.

(** ** Properties of the waiter *)

Module WaiterFacts.
Import Evaluation Reading EvaluationFacts Coroutine Loop LoopFacts Waiter.

Lemma prefix_spec (a u : string) :
  String.prefix a u = true ↔ ∃ post, u = a +:+ post.
Proof.
  revert u. induction a as [|c a IH]; intros u.
  - split; [by exists u|]. intros _. by destruct u.
  - destruct u as [|d u]; simpl.
    + split; [done|]. by intros [post ?].
    + destruct (Ascii.ascii_dec c d) as [->|Hne].
      * rewrite IH. split; intros [post Hp]; exists post.
        -- by rewrite Hp.
        -- by injection Hp.
      * split; [done|]. intros [post Hp]. injection Hp as Hcd _. done.
Qed.

(** [occurs_in] decides whether [a] is a substring of [u]. *)
Lemma occurs_in_spec (a u : string) :
  occurs_in a u = true ↔ ∃ pre post, u = pre +:+ a +:+ post.
Proof.
  induction u as [|c u IH].
  - change (occurs_in a "") with (String.prefix a "" || false).
    rewrite orb_false_r, prefix_spec. split.
    + intros [post Hp]. by exists "", post.
    + intros ([|? ?] & post & Hp); [by exists post|done].
  - change (occurs_in a (String c u))
      with (String.prefix a (String c u) || occurs_in a u).
    rewrite orb_true_iff, prefix_spec, IH. split.
    + intros [[post Hp]|(pre & post & Hp)].
      * by exists "", post.
      * exists (String c pre), post. simpl. by rewrite Hp.
    + intros ([|d pre] & post & Hp).
      * left. by exists post.
      * right. exists pre, post. by injection Hp.
Qed.

Lemma spawn_lookup apps units queue i t :
  tasks (spawn apps units queue) !! i = Some t ↔
  ∃ a, apps !! i = Some a ∧ t = mkTask a (unit_list_for units a) Fetching.
Proof.
  unfold spawn; simpl. rewrite list_lookup_fmap.
  destruct (apps !! i) as [a|]; simpl.
  - split; [intros [= <-]; eauto|]. by intros (? & [= <-] & ->).
  - split; [done|]. by intros (? & ? & _).
Qed.

Lemma cancel_ended t : running (state (cancel t)) = false.
Proof. unfold cancel. destruct (running (state t)) eqn:H; [reflexivity|exact H]. Qed.

Lemma cancel_exception t : exception (cancel t) = exception t.
Proof. by destruct t as [a u []]. Qed.

Lemma omap_exception_cancel (l : list task) :
  omap exception (cancel <$> l) = omap exception l.
Proof.
  induction l as [|t l IH]; [done|]. csimpl.
  by rewrite cancel_exception, IH.
Qed.

Lemma gather_done_spec ws :
  gather_done ws = true ↔ ∀ t, t ∈ tasks ws → running (state t) = false.
Proof.
  unfold gather_done. rewrite forallb_forall. split.
  - intros H t Ht. apply list_elem_of_In, H in Ht. by apply negb_true_iff.
  - intros H t Ht. apply negb_true_iff, H. by apply list_elem_of_In.
Qed.

Lemma cancel_finished (l : list task) :
  (∀ t, t ∈ l → running (state t) = false) → cancel <$> l = l.
Proof.
  induction l as [|t l IH]; intros H; [done|]. csimpl. f_equal.
  - unfold cancel. rewrite H; [done|left].
  - apply IH. intros t' Ht'. apply H. by right.
Qed.

Lemma elem_of_exceptions (l : list task) e :
  e ∈ omap exception l ↔ ∃ t, t ∈ l ∧ state t = Raised e.
Proof.
  rewrite list_elem_of_omap. unfold exception. split.
  - intros (t & Ht & He). exists t. split; [done|].
    destruct (state t); congruence.
  - intros (t & Ht & He). exists t. split; [done|]. by rewrite He.
Qed.

Lemma suspended_insert (l : list task) i t t' :
  l !! i = Some t →
  (suspended (<[i := t']> l) + (if running (state t) then 1 else 0)
   = suspended l + (if running (state t') then 1 else 0))%nat.
Proof.
  revert i. induction l as [|t0 l IH]; intros i Hi; [done|].
  destruct i as [|i]; simpl in *.
  - injection Hi as ->. unfold suspended. simpl. lia.
  - specialize (IH i Hi). unfold suspended in *. simpl. lia.
Qed.

Lemma suspended_spawn apps units queue :
  suspended (tasks (spawn apps units queue)) = length apps.
Proof.
  unfold spawn, suspended. simpl.
  induction apps as [|a apps IH]; [done|]. csimpl. by rewrite IH.
Qed.

Lemma suspended_pos (l : list task) i t :
  l !! i = Some t → running (state t) = true → (1 ≤ suspended l)%nat.
Proof.
  revert i. induction l as [|t0 l IH]; intros i Hi Hr; [done|].
  destruct i as [|i]; simpl in *.
  - injection Hi as ->. unfold suspended. simpl. rewrite Hr. lia.
  - specialize (IH i Hi Hr). unfold suspended in *. simpl. lia.
Qed.

(** With room for every suspended task the queue is not full. *)
Lemma room_not_full ws q i t :
  has_room ws → shared_queue ws = Some q →
  tasks ws !! i = Some t → running (state t) = true →
  full q = false.
Proof.
  unfold has_room. intros Hroom Hq Hi Hr. rewrite Hq in Hroom.
  pose proof (suspended_pos _ _ _ Hi Hr). unfold full.
  destruct (decide (maxsize q ≤ 0)); [done|].
  apply bool_decide_eq_false. lia.
Qed.

Section Room.
Variable wl_status : gset string.
Variable expected_agent_status : option (list string).

(** Each step keeps the room: a task that delivers stops being suspended. *)
Lemma step_has_room ws ev :
  has_room ws → has_room (step wl_status expected_agent_status ws ev).
Proof.
  intros Hroom. destruct ev as [i r|i]; simpl.
  - destruct (tasks ws !! i) as [t|] eqn:Hi; [|done].
    destruct (state t) eqn:Hs; try done.
    pose proof (room_not_full ws) as Hfull.
    unfold has_room in *. simpl.
    set (res := wait_until_status_coroutine _ _ _ _ _ _).
    pose proof (suspended_insert _ i t (set_state t res.1) Hi) as Hins.
    rewrite Hs in Hins. simpl in Hins. subst res.
    unfold wait_until_status_coroutine in *.
    destruct r as [st|e]; simpl in *.
    + destruct (applications st !! app t) as [application|]; simpl in *.
      * destruct (desired_status_reached _ _ _ _); simpl in *.
        -- destruct (shared_queue ws) as [q|] eqn:Hq; simpl in *; [|done].
           unfold put_nowait in *.
           rewrite (Hfull q i t Hroom eq_refl Hi) in * by by rewrite Hs.
           simpl in *. rewrite length_app. simpl. lia.
        -- destruct (shared_queue ws) as [q|]; [|done]. lia.
      * destruct (shared_queue ws) as [q|]; [|done]. lia.
    + destruct (shared_queue ws) as [q|]; [|done]. lia.
  - destruct (tasks ws !! i) as [t|] eqn:Hi; [|done].
    destruct (state t) eqn:Hs; try done.
    unfold has_room in *. simpl.
    pose proof (suspended_insert _ i t (set_state t Fetching) Hi) as Hins.
    rewrite Hs in Hins. simpl in Hins.
    destruct (shared_queue ws) as [q|]; [|done]. lia.
Qed.

Lemma run_has_room trace : ∀ ws,
  has_room ws → has_room (run wl_status expected_agent_status trace ws).
Proof.
  induction trace as [|ev trace IH]; intros ws Hroom; [done|].
  rewrite run_cons. by apply IH, step_has_room.
Qed.

(** No step replaces the queue by another one or changes its bound. *)
Lemma step_queue_bound ws ev q :
  shared_queue ws = Some q →
  ∃ q', shared_queue (step wl_status expected_agent_status ws ev) = Some q'
        ∧ maxsize q' = maxsize q.
Proof.
  intros Hq. destruct ev as [i r|i]; simpl.
  - destruct (tasks ws !! i) as [t|]; [|eauto].
    destruct (state t); eauto. simpl. rewrite Hq.
    unfold wait_until_status_coroutine.
    destruct r as [st|e]; [|eauto].
    destruct (applications st !! app t) as [application|]; [|eauto].
    destruct (desired_status_reached _ _ _ _); [|eauto].
    unfold put_nowait. destruct (full q); simpl; eauto.
  - destruct (tasks ws !! i) as [t|]; [|eauto].
    destruct (state t); eauto.
Qed.

Lemma run_queue_bound trace : ∀ ws q,
  shared_queue ws = Some q →
  ∃ q', shared_queue (run wl_status expected_agent_status trace ws) = Some q'
        ∧ maxsize q' = maxsize q.
Proof.
  induction trace as [|ev trace IH]; intros ws q Hq; [eauto|].
  rewrite run_cons. destruct (step_queue_bound ws ev q Hq) as (q1 & Hq1 & Hm1).
  destruct (IH _ _ Hq1) as (q2 & Hq2 & Hm2). exists q2. split; [done|]. lia.
Qed.

End Room.


Section Unlisted.
Variable wl_status : gset string.
Variable expected_agent_status : option (list string).
Variable i : nat.
Variable A : string.



End Unlisted.

End WaiterFacts.

(** ** Outcomes of [wait_until_desired_status] *)

Module Outcome.
Import Evaluation Reading Coroutine Loop LoopFacts Waiter WaiterFacts Examples.

(** C3: when the timeout fires before every task has ended, the call raises
    the [TimeoutException] that names the model, every task that was still
    suspended is cancelled, the finished ones are left as they are, and no
    task is running afterwards.  There is one deadline for all tasks. *)
Theorem timeout_cancels_every_task (repr : string → string) model apps units
    status agent_status queue trace :
  queue_too_small queue apps = false →
  gather_done (at_deadline apps units status agent_status queue trace) = false →
  let ws := at_deadline apps units status agent_status queue trace in
  let rep := wait_until_desired_status repr model apps units status
               agent_status queue trace in
  raised rep = Some (TimeoutException
    ("Timed out while waiting for model " +:+ repr model +:+ " to be ready"))
  ∧ (∀ t, t ∈ tasks (final rep) → running (state t) = false)
  ∧ (∀ i t, tasks ws !! i = Some t →
       tasks (final rep) !! i
       = Some (if running (state t) then set_state t Cancelled else t)).
Proof.
  intros Hq Hpending ws rep. subst rep. unfold wait_until_desired_status.
  rewrite Hq, Hpending. simpl. split; [done|]. split.
  - intros t Ht. apply list_elem_of_fmap in Ht as (t0 & -> & _).
    apply cancel_ended.
  - intros i t Hi. rewrite list_lookup_fmap. fold ws. by rewrite Hi.
Qed.

Lemma timeout_cancels_every_task_witness :
  let rep := wait_until_desired_status quoted "control-plane" ["nova"; "glance"]
               None None None None
               [Reply 0 (one_unit "nova" "blocked");
                Reply 1 (one_unit "glance" "active")] in
  raised rep = Some (TimeoutException
    "Timed out while waiting for model 'control-plane' to be ready")
  ∧ tasks (final rep)
    = [mkTask "nova" None Cancelled; mkTask "glance" None Returned].
Proof.
  pose proof (timeout_cancels_every_task quoted "control-plane"
    ["nova"; "glance"] None None None None
    [Reply 0 (one_unit "nova" "blocked"); Reply 1 (one_unit "glance" "active")]
    eq_refl ltac:(vm_compute; reflexivity)) as (Hraised & _ & _).
  split; [exact Hraised|]. vm_compute. reflexivity.
Defined.

(** C4 (amended): when every task has ended before the timeout and at least
    one of them ended with an exception, the call raises one
    [JujuWaitException] that carries the exceptions of exactly the failed
    tasks, in task order; the tasks that ended normally contribute nothing. *)
Theorem aggregate_when_all_ended (repr : string → string) model apps units
    status agent_status queue trace :
  queue_too_small queue apps = false →
  gather_done (at_deadline apps units status agent_status queue trace) = true →
  (∃ t e, t ∈ tasks (at_deadline apps units status agent_status queue trace)
          ∧ state t = Raised e) →
  let ws := at_deadline apps units status agent_status queue trace in
  let rep := wait_until_desired_status repr model apps units status
               agent_status queue trace in
  ∃ excs,
    raised rep = Some (JujuWaitException
      ("Error while waiting for model " +:+ repr model +:+ " to be ready") excs)
    ∧ excs = omap exception (tasks ws)
    ∧ (∀ e, e ∈ excs ↔ ∃ t, t ∈ tasks ws ∧ state t = Raised e)
    ∧ tasks (final rep) = tasks ws.
Proof.
  intros Hq Hdone (t & e & Ht & He) ws rep. subst rep.
  unfold wait_until_desired_status. rewrite Hq, Hdone. fold ws. simpl.
  rewrite omap_exception_cancel.
  assert (Hin : e ∈ omap exception (tasks ws)).
  { apply elem_of_exceptions. eauto. }
  destruct (omap exception (tasks ws)) as [|e0 excs] eqn:Hexcs.
  { by apply elem_of_nil in Hin. }
  exists (e0 :: excs). simpl. split; [done|]. split; [done|]. split.
  - intros e'. rewrite <- Hexcs. apply elem_of_exceptions.
  - apply cancel_finished. by apply gather_done_spec.
Qed.

Lemma aggregate_when_all_ended_witness :
  let rep := wait_until_desired_status quoted "control-plane"
               ["keystone"; "glance"; "nova"] None None None None
               [Reply 0 (Failure (JujuAPIError "permission denied"));
                Reply 2 (one_unit "nova" "active");
                Reply 1 nothing] in
  raised rep = Some (JujuWaitException
    "Error while waiting for model 'control-plane' to be ready"
    [JujuAPIError "permission denied";
     ValueError "Application glance not found in status"])
  ∧ tasks (final rep) !! 2%nat = Some (mkTask "nova" None Returned).
Proof.
  destruct (aggregate_when_all_ended quoted "control-plane"
    ["keystone"; "glance"; "nova"] None None None None
    [Reply 0 (Failure (JujuAPIError "permission denied"));
     Reply 2 (one_unit "nova" "active"); Reply 1 nothing]
    eq_refl ltac:(vm_compute; reflexivity)
    ltac:(exists (mkTask "keystone" None
                    (Raised (JujuAPIError "permission denied"))),
            (JujuAPIError "permission denied");
          split; [vm_compute; left | reflexivity]))
    as (excs & Hraised & Hexcs & _ & Hfinal).
  split.
  - rewrite Hraised, Hexcs. vm_compute. reflexivity.
  - rewrite Hfinal. vm_compute. reflexivity.
Defined.

(** C4 as stated fails: two of three tasks end with an exception, the third
    is never satisfied, and the call raises [TimeoutException]; the two
    exceptions are not reported. *)
Lemma exceptions_lost_on_timeout :
  let trace := [Reply 0 (Failure (JujuAPIError "permission denied"));
                Reply 1 nothing;
                Reply 2 (one_unit "nova" "blocked"); Wake 2;
                Reply 2 (one_unit "nova" "blocked")] in
  let rep := wait_until_desired_status quoted "control-plane"
               ["keystone"; "glance"; "nova"] None None None None trace in
  state <$> tasks (at_deadline ["keystone"; "glance"; "nova"] None None None
                     None trace)
  = [Raised (JujuAPIError "permission denied");
     Raised (ValueError "Application glance not found in status");
     Sleeping]
  ∧ raised rep = Some (TimeoutException
      "Timed out while waiting for model 'control-plane' to be ready").
Proof. split; vm_compute; reflexivity. Qed.

Lemma at_deadline_app apps units status agent_status queue trace rest :
  at_deadline apps units status agent_status queue (trace ++ rest)
  = run (wl_status_of status) agent_status rest
      (at_deadline apps units status agent_status queue trace).
Proof. unfold at_deadline, run. apply foldl_app. Qed.

(** C5 (amended): a snapshot without the application ends its watch task at
    once with a [ValueError]; the task is not polled again.  The call raises
    the aggregate [JujuWaitException] holding that error if every other task
    has ended by the deadline, and [TimeoutException] otherwise. *)
Theorem missing_application_fails_task (repr : string → string) model apps
    units status agent_status queue trace i t st rest :
  queue_too_small queue apps = false →
  tasks (at_deadline apps units status agent_status queue trace) !! i = Some t →
  state t = Fetching →
  applications st !! app t = None →
  let err := ValueError ("Application " +:+ app t +:+ " not found in status") in
  let after := at_deadline apps units status agent_status queue
                 (trace ++ [Reply i (Snapshot st)]) in
  let ws := at_deadline apps units status agent_status queue
              (trace ++ Reply i (Snapshot st) :: rest) in
  let rep := wait_until_desired_status repr model apps units status
               agent_status queue (trace ++ Reply i (Snapshot st) :: rest) in
  tasks after !! i = Some (set_state t (Raised err))
  ∧ tasks (final rep) !! i = Some (set_state t (Raised err))
  ∧ (gather_done ws = true →
       ∃ excs, raised rep = Some (JujuWaitException
           ("Error while waiting for model " +:+ repr model +:+ " to be ready")
           excs) ∧ err ∈ excs)
  ∧ (gather_done ws = false →
       raised rep = Some (TimeoutException
         ("Timed out while waiting for model " +:+ repr model
          +:+ " to be ready"))).
Proof.
  intros Hq Hi Hs Hmissing err after ws rep.
  assert (Hafter : tasks after !! i = Some (set_state t (Raised err))).
  { subst after. rewrite at_deadline_app. simpl.
    rewrite Hi, Hs. unfold wait_until_status_coroutine. rewrite Hmissing.
    simpl. apply list_lookup_insert_eq. by eapply lookup_lt_Some. }
  assert (Hws : tasks ws !! i = Some (set_state t (Raised err))).
  { subst ws. rewrite (cons_middle _ trace rest), app_assoc, at_deadline_app.
    by apply run_ended. }
  assert (Hin : err ∈ omap exception (tasks ws)).
  { apply elem_of_exceptions. exists (set_state t (Raised err)).
    split; [|done]. by eapply list_elem_of_lookup_2. }
  subst rep. unfold wait_until_desired_status. rewrite Hq. fold ws.
  split; [done|]. split; [|split].
  - simpl. rewrite omap_exception_cancel. clear Hin.
    destruct (gather_done ws); [destruct (omap exception (tasks ws))|];
      simpl; by rewrite list_lookup_fmap, Hws.
  - intros Hdone. rewrite Hdone. simpl. rewrite omap_exception_cancel.
    destruct (omap exception (tasks ws)) as [|e0 excs] eqn:Hexcs.
    { by apply elem_of_nil in Hin. }
    by exists (e0 :: excs).
  - intros Hpending. by rewrite Hpending.
Qed.

Lemma missing_application_fails_task_witness :
  let rep := wait_until_desired_status quoted "control-plane" ["mysql"]
               None None None None ([] ++ [Reply 0 nothing]) in
  tasks (final rep) !! 0%nat
  = Some (mkTask "mysql" None
            (Raised (ValueError "Application mysql not found in status")))
  ∧ ∃ excs, raised rep = Some (JujuWaitException
        "Error while waiting for model 'control-plane' to be ready" excs)
      ∧ ValueError "Application mysql not found in status" ∈ excs.
Proof.
  destruct (missing_application_fails_task quoted "control-plane" ["mysql"]
    None None None None [] 0%nat (mkTask "mysql" None Fetching)
    (snapshot_of []) [] eq_refl eq_refl eq_refl eq_refl)
    as (_ & Hfinal & Hdone & _).
  split; [exact Hfinal|]. apply Hdone. vm_compute. reflexivity.
Defined.

(** C5 as stated fails: "mysql" is missing from its snapshot and its task
    ends with the [ValueError], but "nova" is never satisfied and the call
    ends with [TimeoutException], not with the aggregate failure. *)
Lemma missing_application_times_out :
  let trace := [Reply 0 nothing; Reply 1 (one_unit "nova" "blocked")] in
  let rep := wait_until_desired_status quoted "control-plane"
               ["mysql"; "nova"] None None None None trace in
  tasks (final rep) !! 0%nat
  = Some (mkTask "mysql" None
            (Raised (ValueError "Application mysql not found in status")))
  ∧ raised rep = Some (TimeoutException
      "Timed out while waiting for model 'control-plane' to be ready").
Proof. split; vm_compute; reflexivity. Qed.

(** X18: a queue whose [maxsize] is below the number of applications is
    refused with a [ValueError] before the model is connected, before a task
    exists and before any status call.  When the
    queue has a free slot for every application as the call starts, then at
    every moment of the wait [put_nowait] succeeds for any task that is still
    suspended, and a task that finds its application in the desired status
    returns with its application name appended to the queue. *)
Theorem queue_precondition (repr : string → string) model apps units status
    agent_status q trace :
  (maxsize q < Z.of_nat (length apps) →
     wait_until_desired_status repr model apps units status agent_status
       (Some q) trace
     = mkReport
         (Some (ValueError
            "Queue size should be at least the number of applications"))
         false (mkWaiterState [] (Some q) 0))
  ∧ (Z.of_nat (length (items q) + length apps) ≤ maxsize q →
     let ws := at_deadline apps units status agent_status (Some q) trace in
     ∃ q', shared_queue ws = Some q' ∧ maxsize q' = maxsize q
       ∧ (∀ i t a, tasks ws !! i = Some t → running (state t) = true →
            put_nowait q' a = inr (mkQueue (maxsize q') (items q' ++ [a])))
       ∧ (∀ i t st application,
            tasks ws !! i = Some t → state t = Fetching →
            applications st !! app t = Some application →
            desired_status_reached application (unit_list t)
              (wl_status_of status) agent_status = true →
            step (wl_status_of status) agent_status ws (Reply i (Snapshot st))
            = mkWaiterState (<[i := set_state t Returned]> (tasks ws))
                (Some (mkQueue (maxsize q') (items q' ++ [app t])))
                (get_status_calls ws))).
Proof.
  split.
  - intros Hsmall. unfold wait_until_desired_status, queue_too_small.
    by rewrite bool_decide_eq_true_2.
  - intros Hfree ws.
    assert (Hroom : has_room ws).
    { apply run_has_room. unfold has_room. rewrite suspended_spawn.
      exact Hfree. }
    destruct (run_queue_bound (wl_status_of status) agent_status trace
                (spawn apps units (Some q)) q eq_refl) as (q' & Hq' & Hmax).
    fold (at_deadline apps units status agent_status (Some q) trace) in Hq'.
    fold ws in Hq'. exists q'. split; [done|]. split; [done|].
    assert (Hput : ∀ i t a, tasks ws !! i = Some t →
              running (state t) = true →
              put_nowait q' a = inr (mkQueue (maxsize q') (items q' ++ [a]))).
    { intros i t a Hi Hr. unfold put_nowait.
      by rewrite (room_not_full ws q' i t Hroom Hq' Hi Hr). }
    split; [exact Hput|].
    intros i t st application Hi Hs Happ Hok.
    rewrite (step_reply _ _ ws i _ t Hi Hs). simpl.
    unfold wait_until_status_coroutine. rewrite Happ, Hok, Hq'.
    rewrite (Hput i t (app t) Hi) by by rewrite Hs. done.
Qed.

Lemma queue_precondition_witness :
  wait_until_desired_status quoted "control-plane" ["app1"; "app2"] None None
    None (Some (mkQueue 1 [])) []
  = mkReport
      (Some (ValueError
         "Queue size should be at least the number of applications"))
      false (mkWaiterState [] (Some (mkQueue 1 [])) 0)
  ∧ ∃ q', shared_queue (at_deadline ["app1"; "app2"] None None None
                          (Some (mkQueue 2 []))
                          [Reply 1 (one_unit "app2" "active")]) = Some q'
          ∧ put_nowait q' "app1" = inr (mkQueue 2 ["app2"; "app1"]).
Proof.
  split.
  - apply (queue_precondition quoted "control-plane" ["app1"; "app2"] None
             None None (mkQueue 1 []) []). simpl. lia.
  - destruct (proj2 (queue_precondition quoted "control-plane"
      ["app1"; "app2"] None None None (mkQueue 2 [])
      [Reply 1 (one_unit "app2" "active")]) ltac:(simpl; lia))
      as (q' & Hq' & _ & Hput & _).
    exists q'. split; [exact Hq'|].
    rewrite (Hput 0%nat (mkTask "app1" None Fetching) "app1" eq_refl eq_refl).
    vm_compute in Hq'. injection Hq' as <-. reflexivity.
Defined.

(** C6: the check compares [maxsize] with the number of applications, not
    the free space.  A queue of [maxsize] 1 that already holds an item is
    accepted for one application; the task that is satisfied then ends with
    [QueueFull] from [put_nowait], which the comment beside the call says
    should never happen, and the caller gets it in a [JujuWaitException]. *)
Lemma queue_full_when_not_empty :
  let q := mkQueue 1 ["earlier"] in
  let rep := wait_until_desired_status quoted "control-plane" ["app1"] None
               None None (Some q) [Reply 0 (one_unit "app1" "active")] in
  queue_too_small (Some q) ["app1"] = false
  ∧ state <$> tasks (final rep) = [Raised QueueFull]
  ∧ raised rep = Some (JujuWaitException
      "Error while waiting for model 'control-plane' to be ready" [QueueFull]).
Proof. repeat split; vm_compute; reflexivity. Qed.

(** C7: a connection error of the status call is not retried.  The first
    [get_status] of the task fails with [ConnectionClosedError]; the task
    ends with that exception, the second answer is never asked for (one
    status call in all) and the caller gets it in the [JujuWaitException]. *)
Theorem connection_error_surfaces :
  let trace := [Reply 0 (Failure (ConnectionClosedError "Test error"));
                Reply 0 (one_unit "app1" "active")] in
  let rep := wait_until_desired_status quoted "control-plane" ["app1"] None
               None None None trace in
  raised rep = Some (JujuWaitException
    "Error while waiting for model 'control-plane' to be ready"
    [ConnectionClosedError "Test error"])
  ∧ state <$> tasks (final rep) = [Raised (ConnectionClosedError "Test error")]
  ∧ get_status_calls (final rep) = 1%nat.
Proof. repeat split; vm_compute; reflexivity. Qed.

(** C8: the tasks do not share a status fetch.  With two applications two
    [get_status] calls are in flight as soon as the tasks have started; the
    answer to the first call, even when it shows both applications active,
    ends the first task only, and the second task still awaits its own
    call. *)
Theorem one_fetch_per_task :
  let ws := spawn ["app1"; "app2"] None None in
  in_flight ws = 2%nat
  ∧ get_status_calls ws = 2%nat
  ∧ state <$> tasks (run {[ "active" ]} None [Reply 0 both_active] ws)
    = [Returned; Fetching]
  ∧ in_flight (run {[ "active" ]} None [Reply 0 both_active] ws) = 1%nat.
Proof. repeat split; vm_compute; reflexivity. Qed.

(** C9: with a units list, the unit subset of the task that watches [A]
    holds exactly the listed names in which [A] occurs as a substring, and
    it stays so during the whole wait. *)
Theorem units_attributed_by_substring apps units status agent_status queue
    trace i A :
  apps !! i = Some A →
  ∃ t l,
    tasks (at_deadline apps (Some units) status agent_status queue trace) !! i
    = Some t
    ∧ app t = A ∧ unit_list t = Some l
    ∧ ∀ u, u ∈ l ↔ u ∈ units ∧ ∃ pre post, u = pre +:+ A +:+ post.
Proof.
  intros Hi.
  set (t0 := mkTask A (unit_list_for (Some units) A) Fetching).
  assert (H0 : tasks (spawn apps (Some units) queue) !! i = Some t0).
  { apply spawn_lookup. by exists A. }
  destruct (run_lookup (wl_status_of status) agent_status trace _ _ _ H0)
    as (s & Hs).
  exists (set_state t0 s), (filter (λ unit, occurs_in A unit = true) units).
  split; [exact Hs|]. split; [done|]. split; [done|].
  intros u. rewrite list_elem_of_filter, occurs_in_spec. tauto.
Qed.

Lemma units_attributed_by_substring_witness :
  ∃ t l,
    tasks (at_deadline ["nova"; "nova-compute"]
             (Some ["nova-compute/0"; "glance/0"; "nova/1"]) None None None [])
      !! 0%nat = Some t
    ∧ app t = "nova" ∧ unit_list t = Some l
    ∧ "nova-compute/0" ∈ l ∧ "nova/1" ∈ l ∧ "glance/0" ∉ l.
Proof.
  destruct (units_attributed_by_substring ["nova"; "nova-compute"]
    ["nova-compute/0"; "glance/0"; "nova/1"] None None None [] 0%nat "nova"
    eq_refl) as (t & l & Ht & Happ & Hl & Hiff).
  exists t, l. split; [exact Ht|]. split; [exact Happ|]. split; [exact Hl|].
  split; [|split].
  - apply Hiff. split; [left|]. by exists "", "-compute/0".
  - apply Hiff. split; [do 2 right; left|]. by exists "", "/1".
  - intros Hin. apply Hiff in Hin as (_ & Hocc).
    apply occurs_in_spec in Hocc. vm_compute in Hocc. discriminate.
Defined.

End Outcome.

(** ** Further properties of the evaluation *)

Module EvaluationMore.
Import Evaluation Reading EvaluationFacts Examples.

Lemma size_list_to_set_le (l : list string) :
  (size (list_to_set (C := gset string) l) ≤ length l)%nat.
Proof.
  induction l as [|x l IH]; [done|]. simpl.
  destruct (decide (x ∈ (list_to_set l : gset string))) as [Hin|Hout].
  - replace ({[x]} ∪ list_to_set l : gset string) with
      (list_to_set l : gset string) by set_solver. lia.
  - rewrite size_union by set_solver. rewrite size_singleton. lia.
Qed.

Lemma size_list_to_set_full (l : list string) :
  size (list_to_set (C := gset string) l) = length l → NoDup l.
Proof.
  induction l as [|x l IH]; intros Hsize; [constructor|].
  simpl in Hsize. pose proof (size_list_to_set_le l) as Hle.
  destruct (decide (x ∈ (list_to_set l : gset string))) as [Hin|Hout].
  - replace ({[x]} ∪ list_to_set l : gset string) with
      (list_to_set l : gset string) in Hsize by set_solver. lia.
  - rewrite size_union in Hsize by set_solver.
    rewrite size_singleton in Hsize. constructor.
    + by rewrite elem_of_list_to_set in Hout.
    + apply IH. lia.
Qed.

(** The unit-count condition on a subset says that the listed names are
    distinct units of the application. *)
Lemma count_matches_listed application (l : list string) :
  count_matches application (Some l) ↔
  NoDup l ∧ ∀ u, u ∈ l → u ∈ dom (units application).
Proof.
  unfold count_matches.
  set (D := dom (units application)). set (S := list_to_set l : gset string).
  assert (Hsub : (size (D ∩ S) ≤ size S)%nat)
    by (apply subseteq_size; set_solver).
  pose proof (size_list_to_set_le l) as Hle. fold S in Hle. split.
  - intros Heq. split.
    + apply size_list_to_set_full. fold S. lia.
    + intros u Hu.
      assert (Heqv : D ∩ S = S).
      { apply set_subseteq_size_eq; [set_solver|lia]. }
      assert (Hs : u ∈ S) by (by apply elem_of_list_to_set).
      rewrite <- Heqv in Hs. set_solver.
  - intros [Hnd Hall].
    assert (Heqv : D ∩ S = S).
    { apply set_eq. intros u. unfold S. rewrite elem_of_intersection,
        elem_of_list_to_set. naive_solver. }
    rewrite Heqv. unfold S. by rewrite size_list_to_set.
Qed.

(** X1: with a unit subset the verdict can only be true if the listed names
    are pairwise distinct and every one of them is a unit of the
    application. *)
Theorem listed_units_must_exist application l expected_status
    expected_agent_status :
  desired_status_reached application (Some l) expected_status
    expected_agent_status = true →
  NoDup l ∧ ∀ u, u ∈ l → u ∈ dom (units application).
Proof.
  intros H. apply verdict_spec in H as (Hcount & _).
  by apply count_matches_listed.
Qed.

Lemma listed_units_must_exist_witness :
  NoDup ["app1/0"] ∧ ∀ u, u ∈ ["app1/0"] → u ∈ dom (units app1_with_message).
Proof.
  apply (listed_units_must_exist app1_with_message ["app1/0"] {[ "active" ]}
           (Some ["idle"])).
  vm_compute. reflexivity.
Defined.

(** X2: accepting more workload statuses, or more agent statuses, or
    dropping the agent constraint, keeps a true verdict true. *)
Theorem verdict_monotone application unit_list (E E' : gset string) G G' :
  desired_status_reached application unit_list E G = true →
  E ⊆ E' →
  (∀ l', G' = Some l' → ∃ l, G = Some l ∧ l ⊆ l') →
  desired_status_reached application unit_list E' G' = true.
Proof.
  intros H HE HG. apply verdict_spec.
  apply verdict_spec in H as (Hc & [Hex Hall] & Hag).
  split; [done|]. split; [split; [done|]|].
  - intros s Hs. by apply HE, Hall.
  - intros l' HG' s Hs. destruct (HG l' HG') as (l & Hl & Hsub).
    by apply Hsub, (Hag l Hl).
Qed.

Lemma verdict_monotone_witness :
  desired_status_reached app1_with_message None {[ "active"; "blocked" ]}
    None = true.
Proof.
  apply (verdict_monotone app1_with_message None {[ "active" ]}
           {[ "active"; "blocked" ]} (Some ["idle"]) None).
  - vm_compute. reflexivity.
  - set_solver.
  - intros l' Hl'. discriminate.
Defined.

(** X3: an application that is not a subordinate and none of whose watched
    units reports a workload status (in particular one without units) is
    never in the desired status. *)
Theorem no_workload_never_reached application unit_list expected_status
    expected_agent_status :
  subordinate_to application = [] →
  (∀ name unit, units application !! name = Some unit →
     in_subset unit_list name → workload_status unit = None) →
  desired_status_reached application unit_list expected_status
    expected_agent_status = false.
Proof.
  intros Hsub Hnone. apply not_true_is_false. intros H.
  apply verdict_spec in H as (_ & [(s & Hs) _] & _).
  unfold reports_workload in Hs. rewrite Hsub in Hs.
  destruct Hs as (n & u & wl & Hu & Hin & Hwl & _).
  rewrite (Hnone n u Hu Hin) in Hwl. discriminate.
Qed.

Lemma no_workload_never_reached_witness :
  desired_status_reached (mkApplicationStatus ∅ [] None (Some 0)) None
    {[ "active" ]} None = false.
Proof.
  apply no_workload_never_reached; [reflexivity|].
  intros name unit Hu. simpl in Hu. by apply lookup_empty_Some in Hu.
Defined.

End EvaluationMore.

(** ** Further properties of the event loop and of the waiter *)

Module WaiterMore.
Import Evaluation Reading EvaluationFacts EvaluationMore Coroutine Loop
  LoopFacts Waiter WaiterFacts Active Examples.

(** The three ways in which the coroutine leaves a status answer. *)
Lemma coroutine_outcome a ul (q : option Queue) wl ag r :
  let res := wait_until_status_coroutine a ul q (Some wl) ag r in
  (∃ e, res = (Raised e, q))
  ∨ (res = (Sleeping, q)
     ∧ ∃ st application, r = Snapshot st
         ∧ applications st !! a = Some application
         ∧ desired_status_reached application ul wl ag = false)
  ∨ (∃ st application, r = Snapshot st
       ∧ applications st !! a = Some application
       ∧ desired_status_reached application ul wl ag = true
       ∧ ((q = None ∧ res = (Returned, None))
          ∨ ∃ q0, q = Some q0 ∧ full q0 = false
              ∧ res = (Returned,
                       Some (mkQueue (maxsize q0) (items q0 ++ [a]))))).
Proof.
  unfold wait_until_status_coroutine. destruct r as [st|e]; [|eauto].
  destruct (applications st !! a) as [application|] eqn:Ha; [|eauto].
  destruct (desired_status_reached application ul wl ag) eqn:Hv.
  - destruct q as [q0|].
    + unfold put_nowait. destruct (full q0) eqn:Hfull; [eauto|].
      right; right. exists st, application. eauto 10.
    + right; right. exists st, application. eauto 10.
  - right; left. eauto 10.
Qed.

Section Steps.
Variable wl_status : gset string.
Variable expected_agent_status : option (list string).

Local Abbreviation step := (step wl_status expected_agent_status).
Local Abbreviation run := (run wl_status expected_agent_status).

(** A step does nothing, wakes a sleeping task, or hands an answer to a
    task that awaits one. *)
Lemma step_outcome ws ev :
  step ws ev = ws
  ∨ (∃ i t, ev = Wake i ∧ tasks ws !! i = Some t ∧ state t = Sleeping
       ∧ step ws ev = mkWaiterState (<[i := set_state t Fetching]> (tasks ws))
                        (shared_queue ws) (S (get_status_calls ws)))
  ∨ (∃ i r t, ev = Reply i r ∧ tasks ws !! i = Some t ∧ state t = Fetching
       ∧ step ws ev =
           let res := wait_until_status_coroutine (app t) (unit_list t)
                        (shared_queue ws) (Some wl_status)
                        expected_agent_status r in
           mkWaiterState (<[i := set_state t res.1]> (tasks ws)) res.2
             (get_status_calls ws)).
Proof.
  destruct ev as [i r|i]; simpl.
  - destruct (tasks ws !! i) as [t|] eqn:Hi; [|by left].
    destruct (state t) eqn:Hs; try (by left).
    right; right. exists i, r, t. by rewrite Hs.
  - destruct (tasks ws !! i) as [t|] eqn:Hi; [|by left].
    destruct (state t) eqn:Hs; try (by left).
    right; left. exists i, t. by rewrite Hs.
Qed.

Lemma insert_lookup_cases (l : list task) i j t t' x :
  l !! i = Some t → <[i := x]> l !! j = Some t' →
  (j = i ∧ t' = x) ∨ (j ≠ i ∧ l !! j = Some t').
Proof.
  intros Hi Hj. destruct (decide (j = i)) as [->|Hne].
  - left. split; [done|].
    rewrite list_lookup_insert_eq in Hj by (by eapply lookup_lt_Some).
    congruence.
  - right. by rewrite list_lookup_insert_ne in Hj.
Qed.

(** No step cancels a task. *)
Lemma step_not_cancelled ws ev :
  (∀ t, t ∈ tasks ws → state t ≠ Cancelled) →
  ∀ t, t ∈ tasks (step ws ev) → state t ≠ Cancelled.
Proof.
  intros Hws t' Ht'.
  destruct (step_outcome ws ev) as [Heq|[(i & t & _ & Hi & _ & Heq)
    |(i & r & t & _ & Hi & _ & Heq)]]; rewrite Heq in Ht'; simpl in Ht'.
  - by apply Hws.
  - apply list_elem_of_lookup in Ht' as [j Hj].
    destruct (insert_lookup_cases _ _ _ _ _ _ Hi Hj) as [[_ ->]|[_ Hold]];
      [done|]. by apply Hws, (list_elem_of_lookup_2 _ j).
  - apply list_elem_of_lookup in Ht' as [j Hj].
    destruct (insert_lookup_cases _ _ _ _ _ _ Hi Hj) as [[_ ->]|[_ Hold]].
    + simpl.
      destruct (coroutine_outcome (app t) (unit_list t) (shared_queue ws)
                  wl_status expected_agent_status r)
        as [[e ->]|[[-> _]|(st & a & _ & _ & _ & [[_ ->]|(q0 & _ & _ & ->)])]];
        done.
    + by apply Hws, (list_elem_of_lookup_2 _ j).
Qed.

Lemma run_not_cancelled trace : ∀ ws,
  (∀ t, t ∈ tasks ws → state t ≠ Cancelled) →
  ∀ t, t ∈ tasks (run trace ws) → state t ≠ Cancelled.
Proof.
  induction trace as [|ev trace IH]; intros ws Hws; [done|].
  rewrite run_cons. by apply IH, step_not_cancelled.
Qed.

Lemma satisfied_in_app trace ev j a ul :
  satisfied_in trace j a ul wl_status expected_agent_status →
  satisfied_in (trace ++ [ev]) j a ul wl_status expected_agent_status.
Proof.
  intros (st & application & Hin & H). exists st, application.
  split; [|done]. apply elem_of_app. by left.
Qed.

Lemma step_returned_justified trace ws ev :
  returned_justified wl_status expected_agent_status trace ws →
  returned_justified wl_status expected_agent_status (trace ++ [ev])
    (step ws ev).
Proof.
  intros Inv j t' Hj Hret.
  destruct (step_outcome ws ev) as [Heq|[(i & t & _ & Hi & _ & Heq)
    |(i & r & t & Hev & Hi & _ & Heq)]]; rewrite Heq in Hj; simpl in Hj.
  - by apply satisfied_in_app, Inv.
  - destruct (insert_lookup_cases _ _ _ _ _ _ Hi Hj) as [[_ ->]|[_ Hold]];
      [done|]. by apply satisfied_in_app, Inv.
  - destruct (insert_lookup_cases _ _ _ _ _ _ Hi Hj) as [[-> ->]|[_ Hold]];
      [|by apply satisfied_in_app, Inv].
    simpl in Hret. simpl.
    destruct (coroutine_outcome (app t) (unit_list t) (shared_queue ws)
                wl_status expected_agent_status r)
      as [[e He]|[[He _]|(st & a & -> & Ha & Hv & _)]].
    + by rewrite He in Hret.
    + by rewrite He in Hret.
    + exists st, a. split; [|done]. apply elem_of_app. right.
      rewrite Hev. left.
Qed.

Lemma run_returned_justified trace : ∀ ws,
  returned_justified wl_status expected_agent_status [] ws →
  returned_justified wl_status expected_agent_status trace (run trace ws).
Proof.
  induction trace as [|ev trace IH] using rev_ind; intros ws Hws; [done|].
  unfold run, Loop.run. rewrite foldl_app. simpl.
  by apply step_returned_justified, IH.
Qed.

End Steps.

(** The state of each task at the deadline is the spawned task in some
    state. *)
Lemma at_deadline_lookup apps units status agent_status queue trace i a :
  apps !! i = Some a →
  ∃ s, tasks (at_deadline apps units status agent_status queue trace) !! i
       = Some (mkTask a (unit_list_for units a) s).
Proof.
  intros Hi.
  assert (H0 : tasks (spawn apps units queue) !! i
               = Some (mkTask a (unit_list_for units a) Fetching)).
  { apply spawn_lookup. by exists a. }
  destruct (run_lookup (wl_status_of status) agent_status trace _ _ _ H0)
    as (s & Hs). by exists s.
Qed.

Lemma spawn_not_cancelled apps units queue t :
  t ∈ tasks (spawn apps units queue) → state t ≠ Cancelled.
Proof.
  intros Ht. apply list_elem_of_lookup in Ht as [i Hi].
  apply spawn_lookup in Hi as (a & _ & ->). done.
Qed.

(** A normal return: the queue was accepted and every task has returned. *)
Lemma normal_return (repr : string → string) model apps units status
    agent_status queue trace :
  raised (wait_until_desired_status repr model apps units status agent_status
            queue trace) = None →
  queue_too_small queue apps = false
  ∧ ∀ t, t ∈ tasks (at_deadline apps units status agent_status queue trace) →
      state t = Returned.
Proof.
  unfold wait_until_desired_status.
  destruct (queue_too_small queue apps); [done|].
  set (ws := at_deadline apps units status agent_status queue trace).
  destruct (gather_done ws) eqn:Hdone; [|done]. simpl.
  rewrite omap_exception_cancel.
  destruct (omap exception (tasks ws)) as [|e excs] eqn:Hexcs; [|done].
  intros _. split; [done|]. intros t Ht.
  pose proof (proj1 (gather_done_spec ws) Hdone t Ht) as Hend.
  pose proof (run_not_cancelled (wl_status_of status) agent_status trace
                (spawn apps units queue) (spawn_not_cancelled apps units queue)
                t Ht) as Hnc.
  destruct (state t) eqn:Hs; try done.
  assert (Hin : e ∈ omap exception (tasks ws)).
  { apply elem_of_exceptions. by exists t. }
  rewrite Hexcs in Hin. by apply elem_of_nil in Hin.
Qed.

Lemma normal_return_satisfied (repr : string → string) model apps units
    status agent_status queue trace :
  raised (wait_until_desired_status repr model apps units status agent_status
            queue trace) = None →
  ∀ i a, apps !! i = Some a →
    satisfied_in trace i a (unit_list_for units a) (wl_status_of status)
      agent_status.
Proof.
  intros Hnone i a Hi.
  destruct (normal_return _ _ _ _ _ _ _ _ Hnone) as (_ & Hall).
  destruct (at_deadline_lookup apps units status agent_status queue trace i a
              Hi) as (s & Hs).
  assert (Inv : returned_justified (wl_status_of status) agent_status trace
                  (at_deadline apps units status agent_status queue trace)).
  { apply run_returned_justified. intros j t Hj Hret.
    apply spawn_lookup in Hj as (a' & _ & ->). done. }
  apply (Inv i _ Hs). apply (Hall _ (list_elem_of_lookup_2 _ _ _ Hs)).
Qed.

(** X4: if [wait_until_desired_status] returns normally, then for every
    listed application its watch task received a snapshot in which the
    application, on its unit subset, was in the desired status. *)
Theorem normal_return_is_sound (repr : string → string) model apps units
    status agent_status queue trace :
  raised (wait_until_desired_status repr model apps units status agent_status
            queue trace) = None →
  ∀ i a, apps !! i = Some a →
    ∃ st application,
      Reply i (Snapshot st) ∈ trace
      ∧ applications st !! a = Some application
      ∧ desired_status_reached application (unit_list_for units a)
          (wl_status_of status) agent_status = true.
Proof. apply normal_return_satisfied. Qed.

Lemma normal_return_is_sound_witness :
  ∃ st application,
    Reply 0 (Snapshot st) ∈ [Reply 0 (one_unit "nova" "active")]
    ∧ applications st !! "nova" = Some application
    ∧ desired_status_reached application None {[ "active" ]} None = true.
Proof.
  apply (normal_return_is_sound quoted "control-plane" ["nova"] None None
           None None [Reply 0 (one_unit "nova" "active")]
           ltac:(vm_compute; reflexivity) 0%nat "nova" eq_refl).
Defined.

Lemma omap_delivered_insert (l : list task) i t t' :
  l !! i = Some t → delivered t = None →
  omap delivered (<[i := t']> l)
  ≡ₚ from_option (λ a, [a]) [] (delivered t') ++ omap delivered l.
Proof.
  revert i. induction l as [|x l IH]; intros i Hi Hnone; [done|].
  destruct i as [|i]; simpl in Hi.
  - injection Hi as ->. csimpl. rewrite Hnone.
    by destruct (delivered t').
  - csimpl. pose proof (IH i Hi Hnone) as Hperm.
    destruct (delivered x) as [b|]; [|done].
    rewrite Hperm. destruct (delivered t') as [a|]; simpl; [|done].
    apply Permutation_swap.
Qed.

Section Delivery.
Variable wl_status : gset string.
Variable expected_agent_status : option (list string).
Variable q0 : Queue.

Lemma step_queue_holds ws ev :
  queue_holds q0 ws →
  queue_holds q0 (step wl_status expected_agent_status ws ev).
Proof.
  intros (q & l & Hq & Hmax & Hitems & Hperm).
  destruct (step_outcome wl_status expected_agent_status ws ev)
    as [Heq|[(i & t & _ & Hi & Hs & Heq)|(i & r & t & _ & Hi & Hs & Heq)]];
    rewrite Heq.
  - by exists q, l.
  - assert (Hnone : delivered t = None) by (by unfold delivered; rewrite Hs).
    exists q, l. split; [done|]. split; [done|]. split; [done|]. cbn [tasks].
    by rewrite (omap_delivered_insert _ i t _ Hi Hnone).
  - cbv zeta. rewrite Hq.
    assert (Hnone : delivered t = None) by (by unfold delivered; rewrite Hs).
    destruct (coroutine_outcome (app t) (unit_list t) (Some q) wl_status
                expected_agent_status r)
      as [[e ->]|[[-> _]|(st & a & _ & _ & _ & [[? _]|(q1 & Hq1 & _ & ->)])]];
      unfold queue_holds; cbn [tasks shared_queue fst snd]; [| |done|].
    + exists q, l. split; [done|]. split; [done|]. split; [done|].
      by rewrite (omap_delivered_insert _ i t _ Hi Hnone).
    + exists q, l. split; [done|]. split; [done|]. split; [done|].
      by rewrite (omap_delivered_insert _ i t _ Hi Hnone).
    + injection Hq1 as <-. eexists _, (l ++ [app t])%list.
      split; [done|]. split; [done|]. split.
      * cbn [items]. by rewrite Hitems, <- app_assoc.
      * rewrite (omap_delivered_insert _ i t _ Hi Hnone).
        cbn [delivered state set_state app from_option].
        rewrite <- Hperm. symmetry. apply Permutation_cons_append.
Qed.

Lemma run_queue_holds trace : ∀ ws,
  queue_holds q0 ws →
  queue_holds q0 (run wl_status expected_agent_status trace ws).
Proof.
  induction trace as [|ev trace IH]; intros ws Hws; [done|].
  rewrite run_cons. by apply IH, step_queue_holds.
Qed.

Lemma step_apps ws ev :
  app <$> tasks (step wl_status expected_agent_status ws ev)
  = app <$> tasks ws.
Proof.
  destruct (step_outcome wl_status expected_agent_status ws ev)
    as [Heq|[(i & t & _ & Hi & _ & Heq)|(i & r & t & _ & Hi & _ & Heq)]];
    rewrite Heq; [done|..]; simpl; rewrite list_fmap_insert; simpl;
    apply list_insert_id; by rewrite list_lookup_fmap, Hi.
Qed.

Lemma run_apps trace : ∀ ws,
  app <$> tasks (run wl_status expected_agent_status trace ws)
  = app <$> tasks ws.
Proof.
  induction trace as [|ev trace IH]; intros ws; [done|].
  by rewrite run_cons, IH, step_apps.
Qed.

End Delivery.

Lemma spawn_apps apps units queue :
  app <$> tasks (spawn apps units queue) = apps.
Proof.
  unfold spawn. simpl. induction apps as [|a apps IH]; [done|].
  csimpl. by rewrite IH.
Qed.

Lemma delivered_all (l : list task) :
  (∀ t, t ∈ l → state t = Returned) → omap delivered l = app <$> l.
Proof.
  induction l as [|t l IH]; intros Hall; [done|]. csimpl.
  unfold delivered at 1. rewrite (Hall t) by left. simpl. f_equal.
  apply IH. intros t' Ht'. apply Hall. by right.
Qed.

(** X5: if the call returns normally and a queue was given, the queue ends
    with the items it held before, in their order, followed by the listed
    application names in some order (the appended part is a permutation of
    [apps]); its bound is unchanged. *)
Theorem queue_after_normal_return (repr : string → string) model apps units
    status agent_status q trace :
  raised (wait_until_desired_status repr model apps units status agent_status
            (Some q) trace) = None →
  ∃ q' posted,
    shared_queue (final (wait_until_desired_status repr model apps units
                           status agent_status (Some q) trace)) = Some q'
    ∧ maxsize q' = maxsize q
    ∧ items q' = (items q ++ posted)%list
    ∧ posted ≡ₚ apps.
Proof.
  intros Hnone.
  destruct (normal_return _ _ _ _ _ _ _ _ Hnone) as (Hq & Hall).
  assert (Hholds : queue_holds q
            (at_deadline apps units status agent_status (Some q) trace)).
  { apply run_queue_holds. exists q, []. split; [done|]. split; [done|].
    split; [by rewrite app_nil_r|].
    replace (omap delivered (tasks (spawn apps units (Some q)))) with
      (@nil string); [done|].
    unfold spawn. simpl. clear. induction apps as [|a apps IH]; [done|].
    csimpl. by rewrite <- IH. }
  destruct Hholds as (q' & l & Hq' & Hmax & Hitems & Hperm).
  exists q', l. split; [|split; [done|split; [done|]]].
  - unfold wait_until_desired_status. rewrite Hq.
    destruct (gather_done _); [destruct (omap exception _)|]; exact Hq'.
  - rewrite Hperm, (delivered_all _ Hall). unfold at_deadline.
    by rewrite run_apps, spawn_apps.
Qed.

Lemma queue_after_normal_return_witness :
  ∃ q' posted,
    shared_queue (final (wait_until_desired_status quoted "control-plane"
            ["app1"; "app2"] None None None (Some (mkQueue 3 ["earlier"]))
            [Reply 1 both_active; Reply 0 both_active])) = Some q'
    ∧ maxsize q' = 3
    ∧ items q' = ("earlier" :: posted)
    ∧ posted ≡ₚ ["app1"; "app2"].
Proof.
  apply (queue_after_normal_return quoted "control-plane" ["app1"; "app2"]
           None None None (mkQueue 3 ["earlier"])
           [Reply 1 both_active; Reply 0 both_active]).
  vm_compute. reflexivity.
Defined.

(** X6: a queue without bound ([maxsize <= 0]), which is never full, is
    refused like one that is too small as soon as one application is
    listed. *)
Theorem unbounded_queue_refused (repr : string → string) model apps units
    status agent_status q trace :
  maxsize q ≤ 0 → apps ≠ [] →
  full q = false
  ∧ raised (wait_until_desired_status repr model apps units status
              agent_status (Some q) trace)
    = Some (ValueError
              "Queue size should be at least the number of applications").
Proof.
  intros Hmax Happs. split.
  - unfold full. by destruct (decide (maxsize q ≤ 0)).
  - unfold wait_until_desired_status, queue_too_small.
    rewrite bool_decide_eq_true_2; [done|].
    destruct apps; [done|]. simpl. lia.
Qed.

Lemma unbounded_queue_refused_witness :
  full (mkQueue 0 []) = false
  ∧ raised (wait_until_desired_status quoted "control-plane" ["app1"] None
              None None (Some (mkQueue 0 [])) [Reply 0 both_active])
    = Some (ValueError
              "Queue size should be at least the number of applications").
Proof.
  apply (unbounded_queue_refused quoted "control-plane" ["app1"] None None
           None (mkQueue 0 []) [Reply 0 both_active]); simpl; [lia|done].
Defined.

Section Unsatisfied.
Variable wl_status : gset string.
Variable expected_agent_status : option (list string).



End Unsatisfied.








End WaiterMore.

(** ** An application none of whose units is listed *)

Module UnlistedApplication.
Import Evaluation Reading EvaluationFacts Coroutine Loop LoopFacts Waiter
  WaiterFacts WaiterMore Active Examples.




End UnlistedApplication.

(** ** Properties of the name helpers *)

Module NamesFacts.
Import Names.

Lemma split_cons sep c rest :
  split sep (String c rest)
  = if Ascii.eqb c sep then "" :: split sep rest
    else String c (first_item (split sep rest)) :: tail (split sep rest).
Proof.
  simpl. destruct (Ascii.eqb c sep); [done|].
  by destruct (split sep rest).
Qed.

Lemma split_not_nil sep s : split sep s ≠ [].
Proof.
  destruct s as [|c rest]; [done|]. rewrite split_cons.
  by destruct (Ascii.eqb c sep).
Qed.

(** A string splits into one part more than it has separators. *)
Lemma split_length sep s : length (split sep s) = S (count_char sep s).
Proof.
  induction s as [|c rest IH]; [done|]. rewrite split_cons. simpl.
  destruct (Ascii.eqb c sep); simpl; [by rewrite IH|].
  pose proof (split_not_nil sep rest).
  destruct (split sep rest); [done|]. simpl in *. lia.
Qed.

Lemma split_none sep s : count_char sep s = 0%nat → split sep s = [s].
Proof.
  induction s as [|c rest IH]; [done|]. simpl.
  destruct (Ascii.eqb c sep); [done|]. simpl. intros H0.
  by rewrite (IH H0).
Qed.

Lemma count_char_app c a b :
  count_char c (a +:+ b) = (count_char c a + count_char c b)%nat.
Proof. induction a as [|d a IH]; [done|]. simpl. rewrite IH. lia. Qed.

Lemma append_assoc (a b c : string) : (a +:+ b) +:+ c = a +:+ b +:+ c.
Proof.
  induction a as [|d a IH]; [done|].
  change (String d ((a +:+ b) +:+ c) = String d (a +:+ b +:+ c)).
  by rewrite IH.
Qed.

Lemma last_split_cons sep c s :
  (1 ≤ count_char sep s)%nat →
  last_item (split sep (String c s)) = last_item (split sep s).
Proof.
  intros Hsep. rewrite split_cons. unfold last_item.
  pose proof (split_length sep s) as Hlen.
  destruct (split sep s) as [|p [|q ps]]; simpl in Hlen; [lia|lia|].
  by destruct (Ascii.eqb c sep).
Qed.

Lemma last_split_app sep a b :
  last_item (split sep (a +:+ String sep b)) = last_item (split sep b).
Proof.
  induction a as [|c a IH].
  - simpl. rewrite Ascii.eqb_refl. unfold last_item.
    pose proof (split_not_nil sep b). by destruct (split sep b).
  - change (String c a +:+ String sep b) with (String c (a +:+ String sep b)).
    rewrite last_split_cons; [done|].
    rewrite count_char_app. simpl. rewrite Ascii.eqb_refl. lia.
Qed.

Lemma rsplit1_none sep s : count_char sep s = 0%nat → rsplit1 sep s = [s].
Proof.
  induction s as [|c rest IH]; [done|]. simpl. intros H0.
  destruct (Ascii.eqb c sep) eqn:Hc; [done|]. simpl in H0.
  by rewrite (IH H0).
Qed.

Lemma rsplit1_app sep a b :
  count_char sep b = 0%nat → rsplit1 sep (a +:+ String sep b) = [a; b].
Proof.
  intros Hb. induction a as [|c a IH].
  - simpl. by rewrite (rsplit1_none sep b Hb), Ascii.eqb_refl.
  - change (String c a +:+ String sep b) with (String c (a +:+ String sep b)).
    simpl. by rewrite IH.
Qed.

(** X10: [_validate_unit] accepts exactly the names with one "/": it raises
    [ValueError] for "app" and "app/0/1" and accepts "app/0", but also "/",
    "app/" and "/0". *)
Theorem validate_unit_one_slash (repr : string → string) unit :
  validate_unit repr unit = None ↔ count_char slash unit = 1%nat.
Proof.
  unfold validate_unit. rewrite split_length.
  destruct (decide (S (count_char slash unit) ≠ 2%nat)) as [Hne|Heq].
  - split; [done|]. intros H1. lia.
  - split; [lia|done].
Qed.

(** X11: for a charm URL that ends in "/name-revision", where the revision
    contains neither "-" nor "/" and the name contains no "/",
    [_extract_charm_name] gives back the name (dashes included) and
    [_extract_charm_revision] the revision. *)
Theorem charm_url_round_trip base name revision :
  count_char slash name = 0%nat →
  count_char slash revision = 0%nat →
  count_char dash revision = 0%nat →
  let charm_url := base +:+ "/" +:+ name +:+ "-" +:+ revision in
  extract_charm_name charm_url = name
  ∧ extract_charm_revision charm_url = revision.
Proof.
  intros Hname Hrev Hdash charm_url. subst charm_url. split.
  - unfold extract_charm_name.
    change (base +:+ "/" +:+ name +:+ "-" +:+ revision)
      with (base +:+ String slash (name +:+ String dash revision)).
    rewrite last_split_app, split_none.
    + unfold last_item. simpl. by rewrite rsplit1_app.
    + rewrite count_char_app. simpl. rewrite Hname, Hrev. done.
  - unfold extract_charm_revision.
    replace (base +:+ "/" +:+ name +:+ "-" +:+ revision)
      with ((base +:+ "/" +:+ name) +:+ String dash revision).
    + rewrite last_split_app, split_none; done.
    + by rewrite !append_assoc.
Qed.

Lemma charm_url_round_trip_witness :
  extract_charm_name "ch:amd64/jammy/cinder-k8s-50" = "cinder-k8s"
  ∧ extract_charm_revision "ch:amd64/jammy/cinder-k8s-50" = "50".
Proof.
  apply (charm_url_round_trip "ch:amd64/jammy" "cinder-k8s" "50");
    reflexivity.
Defined.

Lemma split_app sep a b :
  count_char sep a = 0%nat →
  split sep (a +:+ String sep b) = a :: split sep b.
Proof.
  induction a as [|c a IH]; intros Ha.
  - simpl. by rewrite Ascii.eqb_refl.
  - change (String c a +:+ String sep b) with (String c (a +:+ String sep b)).
    simpl in Ha. rewrite split_cons.
    destruct (Ascii.eqb c sep); [done|]. simpl in Ha. by rewrite (IH Ha).
Qed.

Lemma risk_no_slash r : r ∈ risks → count_char slash r = 0%nat.
Proof.
  unfold risks. rewrite !elem_of_cons, elem_of_nil.
  intros [->|[->|[->|[->|[]]]]]; reflexivity.
Qed.

(** A channel with a "/" is not an abbreviation. *)
Lemma normalise_channel_slash channel :
  (1 ≤ count_char slash channel)%nat → normalise_channel channel = channel.
Proof.
  intros Hs. unfold normalise_channel.
  destruct (decide (channel ∈ risks)) as [Hin|]; [|done].
  apply risk_no_slash in Hin. lia.
Qed.

Lemma normalise_channel_risk r :
  r ∈ risks → normalise_channel r = "latest/" +:+ r.
Proof. intros Hin. unfold normalise_channel. by rewrite decide_True. Qed.

Lemma split_track_risk track risk :
  count_char slash track = 0%nat → count_char slash risk = 0%nat →
  split slash (track +:+ "/" +:+ risk) = [track; risk].
Proof.
  intros Ht Hr. change (track +:+ "/" +:+ risk)
    with (track +:+ String slash risk).
  by rewrite split_app, split_none.
Qed.

Lemma index_risks i r : risks !! i = Some r → index r risks = Some i.
Proof.
  unfold risks. destruct i as [|[|[|[|i]]]]; simpl; intros [= <-]; reflexivity.
Qed.

Lemma index_some x (l : list string) i : index x l = Some i → l !! i = Some x.
Proof.
  revert i. induction l as [|y l IH]; intros i; [done|]. simpl.
  destruct (decide (x = y)) as [->|Hne].
  - by intros [= <-].
  - destruct (index x l) as [k|]; [|done]. simpl. intros [= <-].
    simpl. by apply IH.
Qed.

Section ChannelFacts.
Variable version : Type.
Variable parse : string → option version.
Variable version_lt : version → version → bool.
Variable unpack_message : nat → string.
Variable index_message : string → string.

Local Abbreviation update_needed :=
  (channel_update_needed version parse version_lt unpack_message
     index_message).

Lemma update_same_track track r1 r2 i j :
  count_char slash track = 0%nat →
  risks !! i = Some r1 → risks !! j = Some r2 →
  update_needed (track +:+ "/" +:+ r1) (track +:+ "/" +:+ r2)
  = inr (bool_decide (i < j)%nat).
Proof.
  intros Ht Hi Hj.
  pose proof (risk_no_slash r1 (list_elem_of_lookup_2 _ _ _ Hi)) as Hr1.
  pose proof (risk_no_slash r2 (list_elem_of_lookup_2 _ _ _ Hj)) as Hr2.
  unfold channel_update_needed.
  rewrite normalise_channel_slash.
  - rewrite !split_track_risk by done. unfold unpack2.
    destruct (decide (track ≠ track)) as [Hne|_]; [done|].
    by rewrite (index_risks i r1 Hi), (index_risks j r2 Hj).
  - change (track +:+ "/" +:+ r1) with (track +:+ String slash r1).
    rewrite count_char_app. simpl. lia.
Qed.

(** X12: on one track, an update is needed exactly when the new risk comes
    later in stable, candidate, beta, edge; the track itself plays no role,
    and an abbreviated current channel counts as track "latest". *)
Theorem update_on_same_track track r1 r2 i j :
  count_char slash track = 0%nat →
  risks !! i = Some r1 → risks !! j = Some r2 →
  channel_update_needed version parse version_lt unpack_message
    index_message (track +:+ "/" +:+ r1) (track +:+ "/" +:+ r2)
  = inr (bool_decide (i < j)%nat)
  ∧ channel_update_needed version parse version_lt unpack_message
      index_message r1 ("latest/" +:+ r2) = inr (bool_decide (i < j)%nat).
Proof.
  intros Ht Hi Hj. split; [by apply update_same_track|].
  pose proof (update_same_track "latest" r1 r2 i j eq_refl Hi Hj) as H.
  unfold channel_update_needed in *.
  rewrite (normalise_channel_risk r1 (list_elem_of_lookup_2 _ _ _ Hi)).
  rewrite normalise_channel_slash in H; [done|].
  change ("latest" +:+ "/" +:+ r1) with ("latest" +:+ String slash r1).
  rewrite count_char_app. simpl. lia.
Qed.

(** X13: only the current channel is expanded.  An abbreviated new channel
    ("edge" for "latest/edge") makes the unpacking of its parts fail with
    [ValueError], whatever the well-formed current channel is. *)
Theorem abbreviated_new_channel_raises channel r :
  length (split slash (normalise_channel channel)) = 2%nat →
  r ∈ risks →
  channel_update_needed version parse version_lt unpack_message
    index_message channel r
  = inl (PyError "ValueError" (unpack_message 1)).
Proof.
  intros Hlen Hr. unfold channel_update_needed.
  destruct (split slash (normalise_channel channel)) as [|a [|b [|? ?]]];
    try done. simpl.
  by rewrite (split_none slash r (risk_no_slash r Hr)).
Qed.

(** X14: if the comparison of versions is asymmetric, an update is never
    needed in both directions between two channels; in particular no
    channel needs an update to itself. *)
Theorem update_needed_asymmetric c1 c2 :
  (∀ v1 v2, version_lt v1 v2 = true → version_lt v2 v1 = false) →
  channel_update_needed version parse version_lt unpack_message
    index_message c1 c2 = inr true →
  channel_update_needed version parse version_lt unpack_message
    index_message c2 c1 ≠ inr true.
Proof.
  intros Hasym H12 H21. unfold channel_update_needed in H12, H21.
  destruct (split slash (normalise_channel c1)) as [|t1 [|r1 [|? ?]]] eqn:Hn1;
    try done.
  destruct (split slash c2) as [|t2 [|r2 [|? ?]]] eqn:Hs2; try done.
  assert (Hc2 : normalise_channel c2 = c2).
  { apply normalise_channel_slash. pose proof (split_length slash c2) as Hl.
    rewrite Hs2 in Hl. simpl in Hl. lia. }
  rewrite Hc2, Hs2 in H21. cbn [unpack2] in H12, H21.
  destruct (split slash c1) as [|t1' [|r1' [|? ?]]] eqn:Hs1; try done.
  assert (Hc1 : normalise_channel c1 = c1).
  { apply normalise_channel_slash. pose proof (split_length slash c1) as Hl.
    rewrite Hs1 in Hl. simpl in Hl. lia. }
  rewrite Hc1, Hs1 in Hn1. injection Hn1 as <- <-. cbn [unpack2] in H21.
  destruct (decide (t1' ≠ t2)) as [Hne|Heq].
  - rewrite ?decide_True in H21 by done.
    destruct (parse t1') as [v1|]; [|by inversion H12].
    destruct (parse t2) as [v2|]; [|by inversion H12].
    assert (H12' : version_lt v1 v2 = true) by (by inversion H12).
    assert (H21' : version_lt v2 v1 = true) by (by inversion H21).
    rewrite (Hasym v1 v2 H12') in H21'. done.
  - assert (t1' = t2) as -> by (by destruct (decide (t1' = t2)); [|done]).
    rewrite ?decide_False in H21 by (intros Hn; by apply Hn).
    destruct (index r1' risks) as [i|]; [|by inversion H12].
    destruct (index r2 risks) as [j|]; [|by inversion H12].
    assert (H12' : bool_decide (i < j)%nat = true) by (by inversion H12).
    assert (H21' : bool_decide (j < i)%nat = true) by (by inversion H21).
    apply bool_decide_eq_true in H12', H21'. lia.
Qed.

End ChannelFacts.

(** A toy reading of versions by their length, for the examples. *)
Lemma update_on_same_track_witness :
  channel_update_needed nat (λ s, Some (String.length s)) Nat.ltb
    (λ _, "") (λ _, "") "2024.1/stable" "2024.1/edge" = inr true
  ∧ channel_update_needed nat (λ s, Some (String.length s)) Nat.ltb
      (λ _, "") (λ _, "") "stable" "latest/edge" = inr true.
Proof.
  apply (update_on_same_track nat (λ s, Some (String.length s)) Nat.ltb
           (λ _, "") (λ _, "") "2024.1" "stable" "edge" 0%nat 3%nat);
    reflexivity.
Defined.

Lemma abbreviated_new_channel_raises_witness :
  channel_update_needed nat (λ s, Some (String.length s)) Nat.ltb
    (λ n, "cannot unpack") (λ _, "") "stable" "edge"
  = inl (PyError "ValueError" "cannot unpack").
Proof.
  apply (abbreviated_new_channel_raises nat (λ s, Some (String.length s))
           Nat.ltb (λ n, "cannot unpack") (λ _, "") "stable" "edge").
  - reflexivity.
  - unfold risks. do 3 right. left.
Defined.

Lemma update_needed_asymmetric_witness :
  channel_update_needed nat (λ s, Some (String.length s)) Nat.ltb
    (λ _, "") (λ _, "") "2024.1/edge" "2024.1/stable" ≠ inr true.
Proof.
  apply (update_needed_asymmetric nat (λ s, Some (String.length s)) Nat.ltb
           (λ _, "") (λ _, "") "2024.1/stable" "2024.1/edge").
  - intros v1 v2 Hlt. apply Nat.ltb_lt in Hlt. apply Nat.ltb_ge. lia.
  - reflexivity.
Defined.

End NamesFacts.

(** ** Properties of the unit helpers *)

Module UnitsFacts.
Import Names NamesFacts Units.

Lemma validate_unit_accepts (repr : string → string) name :
  count_char slash name = 1%nat → validate_unit repr name = None.
Proof.
  intros H1. unfold validate_unit. rewrite split_length, H1.
  by rewrite decide_False by (intros Hne; by apply Hne).
Qed.

Section WithRepr.
Variable repr : string → string.

Lemma on_machine_app machine_id (pre post : list Unit) unit :
  on_machine machine_id (pre ++ post)%list unit
  = match on_machine machine_id pre unit with
    | inl e => inl e
    | inr found => on_machine machine_id post found
    end.
Proof.
  revert unit. induction pre as [|u pre IH]; intros unit; [done|]. simpl.
  destruct (machine u); [apply IH|done].
Qed.

Lemma on_machine_no_match machine_id (l : list Unit) unit :
  Forall (λ v, ∃ m, machine v = Some m ∧ m ≠ machine_id) l →
  on_machine machine_id l unit = inr unit.
Proof.
  intros Hl. revert unit. induction Hl as [|v l (m & Hm & Hne) _ IH];
    intros unit; [done|]. simpl. rewrite Hm.
  rewrite decide_False by congruence. apply IH.
Qed.

Lemma on_machine_placed machine_id (l : list Unit) unit :
  Forall (λ v, is_Some (machine v)) l →
  ∃ found, on_machine machine_id l unit = inr found.
Proof.
  intros Hl. revert unit. induction Hl as [|v l [m Hm] _ IH]; intros unit;
    [by exists unit|]. simpl. rewrite Hm. apply IH.
Qed.

Lemma on_machine_unplaced machine_id (l : list Unit) unit v :
  v ∈ l → machine v = None →
  on_machine machine_id l unit
  = inl (PyError "AttributeError"
           "'NoneType' object has no attribute 'entity_id'").
Proof.
  intros Hin Hv. revert unit.
  induction l as [|w l IH]; intros unit; [by apply elem_of_nil in Hin|].
  simpl. destruct (machine w) as [m|] eqn:Hw; [|done].
  apply elem_of_cons in Hin as [->|Hin]; [congruence|by apply IH].
Qed.

(** X15: what [get_unit_from_machine] gives for an application of the model.
    If some unit of the application has no machine, wherever it stands in
    the list, the call ends with [AttributeError].  If every unit has a
    machine, it returns the last unit that is on the machine, and raises
    [UnitNotFoundException] when no unit is on it. *)
Theorem last_unit_on_machine_wins application machine_id model app :
  m_applications model !! application = Some app →
  ((∃ v, v ∈ application_units app ∧ machine v = None) →
   get_unit_from_machine repr application machine_id model
   = inl (PyError "AttributeError"
            "'NoneType' object has no attribute 'entity_id'"))
  ∧ (Forall (λ v, is_Some (machine v)) (application_units app) →
     (∀ (pre : list Unit) unit (post : list Unit),
        application_units app = (pre ++ unit :: post)%list →
        machine unit = Some machine_id →
        Forall (λ v, machine v ≠ Some machine_id) post →
        get_unit_from_machine repr application machine_id model = inr unit)
     ∧ (Forall (λ v, machine v ≠ Some machine_id) (application_units app) →
        get_unit_from_machine repr application machine_id model
        = inl (PyError "UnitNotFoundException"
                 ("Unit for application " +:+ repr application
                  +:+ " on machine " +:+ repr machine_id +:+ " "
                  +:+ "is missing from model " +:+ repr (m_name model))))).
Proof.
  intros Happ. unfold get_unit_from_machine, get_application. rewrite Happ.
  assert (Hother : ∀ l : list Unit,
            Forall (λ v, is_Some (machine v)) l →
            Forall (λ v, machine v ≠ Some machine_id) l →
            Forall (λ v, ∃ m, machine v = Some m ∧ m ≠ machine_id) l).
  { intros l Hl Hne. apply Forall_forall. intros v Hv.
    rewrite Forall_forall in Hl, Hne.
    destruct (Hl v Hv) as [m Hm]. exists m. split; [done|].
    intros ->. by apply (Hne v Hv). }
  split; [|intros Hplaced; split].
  - intros (v & Hin & Hv).
    by rewrite (on_machine_unplaced machine_id _ None v Hin Hv).
  - intros pre unit post Hunits Hunit Hpost.
    rewrite Hunits in Hplaced |- *.
    apply Forall_app in Hplaced as (Hpre & Hrest).
    apply Forall_cons in Hrest as (_ & Hpost').
    rewrite on_machine_app.
    destruct (on_machine_placed machine_id pre None Hpre) as [found ->].
    simpl. rewrite Hunit. rewrite decide_True by done.
    by rewrite (on_machine_no_match machine_id post _ (Hother _ Hpost' Hpost)).
  - intros Hnone.
    by rewrite (on_machine_no_match machine_id _ None (Hother _ Hplaced Hnone)).
Qed.

(** X16: [wait_units_ready] returns at once, without waiting for any unit,
    as soon as the first listed name that is not a unit of the model is a
    well-formed name; what comes after it in the list is not looked at. *)
Theorem missing_unit_returns_at_once model (pre : list (string + Unit)) name
    (post : list (string + Unit)) :
  Forall (passes model) pre →
  count_char slash name = 1%nat →
  m_units model !! name = None →
  prepare_units repr model (Several (pre ++ inl name :: post)%list) = Returns.
Proof.
  intros Hpre Hname Hmissing. unfold prepare_units.
  generalize (@nil Unit) as unit_list.
  induction Hpre as [|item pre Hitem _ IH]; intros unit_list; simpl.
  - rewrite (validate_unit_accepts repr name Hname). unfold get_unit.
    by rewrite (validate_unit_accepts repr name Hname), Hmissing.
  - destruct item as [n|u]; [|apply IH].
    destruct Hitem as [Hn [live Hlive]].
    rewrite (validate_unit_accepts repr n Hn). unfold get_unit.
    rewrite (validate_unit_accepts repr n Hn), Hlive. apply IH.
Qed.

(** X17: the condition of [wait_units_ready] is true exactly when every
    collected unit is still in the model and its current agent and workload
    statuses are accepted, "idle" and "active" being accepted when the
    caller gives nothing else. *)
Theorem units_ready_iff accepted_status model unit_list :
  units_ready repr accepted_status model unit_list = inr true ↔
  ∀ unit, unit ∈ unit_list →
    ∃ unit_impl, m_units model !! entity_id unit = Some unit_impl
      ∧ unit_agent_status unit_impl ∈ accepted accepted_status "agent" ["idle"]
      ∧ unit_workload_status unit_impl
        ∈ accepted accepted_status "workload" ["active"].
Proof.
  unfold units_ready.
  set (A := accepted accepted_status "agent" ["idle"]).
  set (W := accepted accepted_status "workload" ["active"]).
  induction unit_list as [|u l IH]; simpl.
  - split; [|done]. intros _ unit Hin. by apply elem_of_nil in Hin.
  - destruct (m_units model !! entity_id u) as [live|] eqn:Hlive.
    + destruct (bool_decide (unit_agent_status live ∈ A)) eqn:Ha;
        destruct (bool_decide (unit_workload_status live ∈ W)) eqn:Hw; simpl.
      * rewrite IH. apply bool_decide_eq_true in Ha, Hw. split.
        -- intros Hall unit Hin. apply elem_of_cons in Hin as [->|Hin];
             [by exists live|by apply Hall].
        -- intros Hall unit Hin. apply Hall. by right.
      * split; [by intros H; inversion H|]. intros Hall.
        destruct (Hall u) as (live' & Hl' & _ & Hw'); [left|].
        apply bool_decide_eq_false in Hw. congruence.
      * split; [by intros H; inversion H|]. intros Hall.
        destruct (Hall u) as (live' & Hl' & Ha' & _); [left|].
        apply bool_decide_eq_false in Ha. congruence.
      * split; [by intros H; inversion H|]. intros Hall.
        destruct (Hall u) as (live' & Hl' & Ha' & _); [left|].
        apply bool_decide_eq_false in Ha. congruence.
    + split; [by intros H; inversion H|]. intros Hall.
      destruct (Hall u) as (live' & Hl' & _); [left|]. congruence.
Qed.

End WithRepr.

Lemma last_unit_on_machine_wins_witness :
  get_unit_from_machine Waiter.quoted "nova" "3"
    (mkModel "control-plane"
       {[ "nova" := mkApplication
            [mkUnit "nova/0" (Some "3") "idle" "active";
             mkUnit "nova/1" (Some "3") "idle" "active";
             mkUnit "nova/2" (Some "4") "idle" "active"] ]} ∅)
  = inr (mkUnit "nova/1" (Some "3") "idle" "active")
  ∧ get_unit_from_machine Waiter.quoted "nova" "3"
      (mkModel "control-plane"
         {[ "nova" := mkApplication
              [mkUnit "nova/0" (Some "3") "idle" "active";
               mkUnit "nova/1" None "allocating" "waiting"] ]} ∅)
    = inl (PyError "AttributeError"
             "'NoneType' object has no attribute 'entity_id'").
Proof.
  split.
  - refine (proj1 (proj2 (last_unit_on_machine_wins Waiter.quoted "nova" "3"
             (mkModel "control-plane"
                {[ "nova" := mkApplication
                     [mkUnit "nova/0" (Some "3") "idle" "active";
                      mkUnit "nova/1" (Some "3") "idle" "active";
                      mkUnit "nova/2" (Some "4") "idle" "active"] ]} ∅)
             _ eq_refl) _)
             [mkUnit "nova/0" (Some "3") "idle" "active"]
             (mkUnit "nova/1" (Some "3") "idle" "active")
             [mkUnit "nova/2" (Some "4") "idle" "active"] eq_refl eq_refl _).
    + repeat constructor; by eexists.
    + repeat constructor. discriminate.
  - refine (proj1 (last_unit_on_machine_wins Waiter.quoted "nova" "3"
             (mkModel "control-plane"
                {[ "nova" := mkApplication
                     [mkUnit "nova/0" (Some "3") "idle" "active";
                      mkUnit "nova/1" None "allocating" "waiting"] ]} ∅)
             _ eq_refl) _).
    exists (mkUnit "nova/1" None "allocating" "waiting").
    split; [|reflexivity]. right. left.
Defined.

Lemma missing_unit_returns_at_once_witness :
  prepare_units Waiter.quoted
    (mkModel "control-plane" ∅
       {[ "nova/0" := mkUnit "nova/0" (Some "3") "executing" "blocked" ]})
    (Several [inl "nova/0"; inl "nova/7"; inl "not a unit name"])
  = Returns.
Proof.
  apply (missing_unit_returns_at_once Waiter.quoted _ [inl "nova/0"] "nova/7"
           [inl "not a unit name"]).
  - repeat constructor. by eexists.
  - reflexivity.
  - reflexivity.
Defined.

End UnitsFacts.
